(** * articleDetector: classification, segmentation, word frequency and
      compliance, embedded from the Python sources and verified.

    The embedding follows the four source files that hold decision logic:
    [classifier.py], [text_analyzer.py], [compliance_validator.py] and the
    way [main.py] chains them.  Python values are modelled as the
    interpreter has them: a [str] is a sequence of Unicode code points, an
    [int] is an unbounded integer, a [float] is an IEEE-754 binary64 value,
    a [dict] read with [.get] is a finite map. *)

From Stdlib Require Import ZArith NArith List Bool String Ascii Decimal Lia Sorted.
From Stdlib Require Import Floats.
From stdpp Require Import base option list strings gmap.

Set Default Proof Using "Type".

(* ===================================================================== *)
(** * Part I.  The embedding                                              *)
(* ===================================================================== *)

(** ** Python strings and exceptions *)

Module Py.

(** A character is its code point; [len] counts code points. *)
Abbreviation char := N (only parsing).
Abbreviation pystr := (list N) (only parsing).

(** An ASCII literal of the source, as code points. *)
Definition lit (s : string) : pystr :=
  map N_of_ascii (list_ascii_of_string s).

Inductive exn := TypeError | OverflowError.

Inductive res (A : Type) :=
| Ok (a : A)
| Raise (e : exn).
Arguments Ok {A} a.
Arguments Raise {A} e.

Definition bind {A B} (m : res A) (k : A -> res B) : res B :=
  match m with
  | Ok a => k a
  | Raise e => Raise e
  end.

(** [Py_UNICODE_ISSPACE]: the one whitespace predicate behind
    [str.strip()], [str.split()] and [\s] of [re] on [str] patterns. *)
Definition isspace (c : char) : bool :=
  ((9 <=? c) && (c <=? 13) || (28 <=? c) && (c <=? 32)
   || (c =? 133) || (c =? 160) || (c =? 5760)
   || (8192 <=? c) && (c <=? 8202)
   || (c =? 8232) || (c =? 8233) || (c =? 8239) || (c =? 8287)
   || (c =? 12288))%N.

Fixpoint lstrip (s : pystr) : pystr :=
  match s with
  | c :: s' => if isspace c then lstrip s' else s
  | [] => []
  end.

Definition rstrip (s : pystr) : pystr := rev (lstrip (rev s)).

(** [s.strip()] *)
Definition strip (s : pystr) : pystr := rstrip (lstrip s).

Definition cons_head (c : char) (l : list pystr) : list pystr :=
  match l with
  | w :: l' => (c :: w) :: l'
  | [] => [[c]]
  end.

Definition starts_word (s : pystr) : bool :=
  match s with
  | c :: _ => negb (isspace c)
  | [] => false
  end.

(** [s.split()]: the maximal runs of characters that are not
    whitespace, in order. *)
Fixpoint split (s : pystr) : list pystr :=
  match s with
  | [] => []
  | c :: s' =>
      if isspace c then split s'
      else if starts_word s' then cons_head c (split s')
      else [c] :: split s'
  end.

(** [sep.join(l)] *)
Fixpoint join (sep : pystr) (l : list pystr) : pystr :=
  match l with
  | [] => []
  | [w] => w
  | w :: l' => w ++ sep ++ join sep l'
  end.

Fixpoint is_prefix (p s : pystr) : bool :=
  match p, s with
  | [], _ => true
  | a :: p', b :: s' => (a =? b)%N && is_prefix p' s'
  | _ :: _, [] => false
  end.

(** [p in s] on strings: [p] occurs as a contiguous substring. *)
Fixpoint contains (p s : pystr) : bool :=
  is_prefix p s ||
  match s with
  | [] => false
  | _ :: s' => contains p s'
  end.

Fixpoint uint_digits (u : Decimal.uint) : pystr :=
  match u with
  | Nil => []
  | D0 u => 48%N :: uint_digits u
  | D1 u => 49%N :: uint_digits u
  | D2 u => 50%N :: uint_digits u
  | D3 u => 51%N :: uint_digits u
  | D4 u => 52%N :: uint_digits u
  | D5 u => 53%N :: uint_digits u
  | D6 u => 54%N :: uint_digits u
  | D7 u => 55%N :: uint_digits u
  | D8 u => 56%N :: uint_digits u
  | D9 u => 57%N :: uint_digits u
  end.

(** [str(n)] of an [int], as an f-string field formats it. *)
Definition str_of_int (z : Z) : pystr :=
  match Z.to_int z with
  | Decimal.Pos u => uint_digits u
  | Decimal.Neg u => 45%N :: uint_digits u
  end.

(** [sys.maxsize] of a 64-bit build: no [str] is longer. *)
Definition maxsize : Z := 2 ^ 63 - 1.

(** The values that the analysis dictionary of [analyze_text] holds. *)
Inductive pyval :=
| PyInt (z : Z)
| PyStr (s : pystr)
| PyStrList (l : list pystr)
| PyFreqList (l : list (pystr * Z)).

(** A comparison with an [int] raises [TypeError] on a value that is
    not a number. *)
Definition as_int (v : pyval) : res Z :=
  match v with
  | PyInt z => Ok z
  | _ => Raise TypeError
  end.

(** [d.get(k, default)] *)
Definition dict_get (d : gmap string pyval) (k : string) (default : pyval) : pyval :=
  match d !! k with
  | Some v => v
  | None => default
  end.

End Py.

Import Py.

#[global] Instance res_ret : MRet res := @Ok.
#[global] Instance res_bind : MBind res := fun A B k m => Py.bind m k.

(** ** The Unicode character database

    [str.lower()], [\w] and [\d] consult CPython's Unicode tables, which
    are not part of the repository.  They are taken as an interface; its
    laws fix the tables on Basic Latin, where the interpreter's answers
    are the familiar ASCII ones. *)

Definition is_ascii (c : char) : Prop := (c < 128)%N.

Definition ascii_lower (c : char) : char :=
  if ((65 <=? c) && (c <=? 90))%N then (c + 32)%N else c.

Definition ascii_isdigit (c : char) : bool := ((48 <=? c) && (c <=? 57))%N.

Definition ascii_isalnum (c : char) : bool :=
  ascii_isdigit c || ((65 <=? c) && (c <=? 90))%N || ((97 <=? c) && (c <=? 122))%N.

Class Unicode := {
  (** [str.lower()] *)
  lower : pystr -> pystr;
  (** [Py_UNICODE_ISALNUM] *)
  isalnum : char -> bool;
  (** [Py_UNICODE_ISDECIMAL] *)
  isdecimal : char -> bool;
  lower_ascii : forall s, Forall is_ascii s -> lower s = map ascii_lower s;
  isalnum_ascii : forall c, is_ascii c -> isalnum c = ascii_isalnum c;
  isdecimal_ascii : forall c, is_ascii c -> isdecimal c = ascii_isdigit c
}.

(** The tables on U+0000..U+00FF (Basic Latin and Latin-1 Supplement);
    code points above are left as they are and belong to no class.  An
    instance of the interface on which the program can be run. *)
Module Latin1.

Definition lower_char (c : char) : char :=
  if ((65 <=? c) && (c <=? 90) ||
      (192 <=? c) && (c <=? 222) && negb (c =? 215))%N
  then (c + 32)%N else c.

Definition isdecimal (c : char) : bool := ascii_isdigit c.

Definition isalnum (c : char) : bool :=
  (ascii_isalnum c
   || (c =? 170) || (c =? 178) || (c =? 179) || (c =? 181) || (c =? 185)
   || (c =? 186) || (188 <=? c) && (c <=? 190)
   || (192 <=? c) && (c <=? 214) || (216 <=? c) && (c <=? 246)
   || (248 <=? c) && (c <=? 255))%N.

Definition db : Unicode.
Proof.
  refine (Build_Unicode (map lower_char) isalnum isdecimal _ _ (fun c _ => eq_refl)).
  - induction 1 as [|c s Hc _ IH]; simpl; [reflexivity|].
    rewrite IH. f_equal. unfold lower_char, ascii_lower, is_ascii in *.
    destruct (N.leb_spec 192 c); [lia|]. simpl. now rewrite orb_false_r.
  - unfold isalnum, is_ascii. intros c Hc.
    repeat match goal with
           | |- context [N.eqb c ?k] => destruct (N.eqb_spec c k); [lia|]
           | |- context [N.leb ?k c] =>
               lazymatch k with
               | 188%N => idtac | 192%N => idtac | 216%N => idtac | 248%N => idtac
               end;
               destruct (N.leb_spec k c); [lia|]
           end.
    simpl. now rewrite !orb_false_r.
Defined.

End Latin1.

(** ** The regular expressions of the program

    Every pattern in the sources is a sequence of single-character
    classes, each under a greedy quantifier, and [\b] assertions.  The
    matcher is the backtracking one of [re]: a quantified class first
    takes the longest run it can and gives characters back one at a time
    until the rest of the pattern matches. *)

Module Re.

Inductive node :=
| Rep (cls : char -> bool) (lo : nat) (hi : option nat)
| WordB.

Definition pattern := list node.

(** [c], [c?], [c*], [c+], [c{n}] *)
Definition one (cls : char -> bool) : node := Rep cls 1 (Some 1).
Definition opt (cls : char -> bool) : node := Rep cls 0 (Some 1).
Definition star (cls : char -> bool) : node := Rep cls 0 None.
Definition plus (cls : char -> bool) : node := Rep cls 1 None.
Definition times (n : nat) (cls : char -> bool) : node := Rep cls n (Some n).

Definition chr (x : char) : char -> bool := N.eqb x.
Definition lits (s : string) : pattern := map (fun x => one (chr x)) (lit s).

(** The longest run of [cls] at the head of [s], at most [hi] long. *)
Fixpoint run (cls : char -> bool) (hi : option nat) (s : pystr) : nat :=
  match s with
  | c :: s' =>
      if cls c then
        match hi with
        | Some 0 => 0
        | Some (S h) => S (run cls (Some h) s')
        | None => S (run cls None s')
        end
      else 0
  | [] => 0
  end.

(** Try [f n], [f (n-1)], ..., [f lo]; the first success wins. *)
Fixpoint backtrack {A} (f : nat -> option A) (lo n : nat) : option A :=
  if n <? lo then None
  else match f n with
       | Some r => Some r
       | None => match n with
                 | S n' => backtrack f lo n'
                 | 0 => None
                 end
       end.

Definition last_char (prev : option char) (consumed : pystr) : option char :=
  match last consumed with
  | Some c => Some c
  | None => prev
  end.

Section Engine.
Context {U : Unicode}.

(** [\w] on a [str] pattern *)
Definition is_word (c : char) : bool := isalnum c || (c =? 95)%N.

Definition word_before (prev : option char) : bool :=
  match prev with Some c => is_word c | None => false end.

Definition word_at (s : pystr) : bool :=
  match s with c :: _ => is_word c | [] => false end.

(** [\b]: exactly one side of the position is a word character. *)
Definition at_boundary (prev : option char) (s : pystr) : bool :=
  xorb (word_before prev) (word_at s).

(** Match [p] at the head of [s], [prev] being the character before;
    the length of the match. *)
Fixpoint match_here (p : pattern) (prev : option char) (s : pystr) : option nat :=
  match p with
  | [] => Some 0
  | WordB :: p' =>
      if at_boundary prev s then match_here p' prev s else None
  | Rep cls lo hi :: p' =>
      backtrack
        (fun k => Nat.add k <$> match_here p' (last_char prev (take k s)) (drop k s))
        lo (run cls hi s)
  end.

(** [re.search(p, s)] as a truth value. *)
Fixpoint search_from (p : pattern) (prev : option char) (s : pystr) : bool :=
  match match_here p prev s with
  | Some _ => true
  | None => match s with
            | c :: s' => search_from p (Some c) s'
            | [] => false
            end
  end.

Definition search (p : pattern) (s : pystr) : bool := search_from p None s.

(** [re.findall(p, s)] for a pattern without groups: the matches from
    left to right, each search resuming where the last match ended.
    [skip] counts the characters of the current match still to pass.
    No pattern of the program matches the empty string, so an empty
    match is no match here. *)
Fixpoint findall_from (p : pattern) (prev : option char) (s : pystr)
    (skip : nat) : list pystr :=
  match s with
  | [] => []
  | c :: s' =>
      match skip with
      | S k => findall_from p (Some c) s' k
      | 0 =>
          match match_here p prev s with
          | Some (S k) => take (S k) s :: findall_from p (Some c) s' k
          | _ => findall_from p (Some c) s' 0
          end
      end
  end.

Definition findall (p : pattern) (s : pystr) : list pystr :=
  findall_from p None s 0.

(** [re.split(p, s)]: the pieces of [s] between the matches. *)
Fixpoint split_from (p : pattern) (prev : option char) (s : pystr)
    (skip : nat) : list pystr :=
  match s with
  | [] => [[]]
  | c :: s' =>
      match skip with
      | S k => split_from p (Some c) s' k
      | 0 =>
          match match_here p prev s with
          | Some (S k) => [] :: split_from p (Some c) s' k
          | _ => cons_head c (split_from p (Some c) s' 0)
          end
      end
  end.

Definition split (p : pattern) (s : pystr) : list pystr :=
  split_from p None s 0.

End Engine.

End Re.

(** ** Python floats

    A [float] is an IEEE-754 binary64 value; the operations are the
    correctly rounded ones of the standard library's specification
    ([prec = 53], [emax = 1024]). *)

Module F.

Definition float := spec_float.

Definition zero : float := S754_zero false.
Definition c0_015 : float := S754_finite false 8646911284551352 (-59).
Definition c0_02 : float := S754_finite false 5764607523034235 (-58).
Definition c0_04 : float := S754_finite false 5764607523034235 (-57).
Definition c0_1 : float := S754_finite false 7205759403792794 (-56).
Definition c0_2 : float := S754_finite false 7205759403792794 (-55).
Definition c0_3 : float := S754_finite false 5404319552844595 (-54).
Definition c1_0 : float := S754_finite false 4503599627370496 (-52).

Definition add (x y : float) : float := SFadd prec emax x y.
Definition mul (x y : float) : float := SFmul prec emax x y.
Definition ltb (x y : float) : bool := SFltb x y.
Definition leb (x y : float) : bool := SFleb x y.

(** [float(n)] of an [int], as [n * 0.015] converts its left operand:
    rounded to nearest even, [OverflowError] when the result would not
    be finite. *)
Definition of_int (z : Z) : res float :=
  match binary_normalize prec emax z 0 false with
  | S754_infinity _ => Raise OverflowError
  | x => Ok x
  end.

(** [min(a, b)]: [b] only when [b < a]. *)
Definition min (a b : float) : float := if ltb b a then b else a.

End F.

(** ** classifier.py *)

Module Classifier.

Definition scientific_keywords : list pystr :=
  [ lit "abstract"; lit "resumo"; lit "introduction";
    lit "introdu" ++ [231; 227]%N ++ lit "o";
    lit "methodology"; lit "metodologia"; lit "results"; lit "resultados";
    lit "discussion"; lit "discuss" ++ [227%N] ++ lit "o";
    lit "conclusion"; lit "conclus" ++ [227%N] ++ lit "o";
    lit "references"; lit "refer" ++ [234%N] ++ lit "ncias"; lit "bibliografia";
    lit "hypothesis"; lit "hip" ++ [243%N] ++ lit "tese";
    lit "experiment"; lit "experimento";
    lit "analysis"; lit "an" ++ [225%N] ++ lit "lise"; lit "study"; lit "estudo";
    lit "research"; lit "pesquisa"; lit "method"; lit "m" ++ [233%N] ++ lit "todo";
    lit "et al"; lit "figure"; lit "figura"; lit "table"; lit "tabela";
    lit "doi"; lit "issn"; lit "journal"; lit "revista" ].

Definition sections : list pystr :=
  map lit ["abstract"; "introduction"; "method"; "result"; "conclusion";
           "reference"]%string.

Definition upper_az (c : char) : bool := ((65 <=? c) && (c <=? 90))%N.
Definition lower_az (c : char) : bool := ((97 <=? c) && (c <=? 122))%N.

Record FeatureSet := {
  keyword_count : Z;
  citation_count : Z;
  has_doi : bool;
  has_issn : bool;
  section_count : Z
}.

Record Verdict := {
  is_scientific : bool;
  confidence : F.float;
  reason : pystr;
  (** [None] is the empty dictionary of the short-text verdict. *)
  features : option FeatureSet
}.

(** 'Texto muito curto' *)
Definition reason_short : pystr := lit "Texto muito curto".
(** 'Artigo Científico' *)
Definition reason_scientific : pystr := lit "Artigo Cient" ++ [237%N] ++ lit "fico".
(** 'Não é artigo científico' *)
Definition reason_not_scientific : pystr :=
  lit "N" ++ [227%N] ++ lit "o " ++ [233%N] ++ lit " artigo cient" ++ [237%N]
    ++ lit "fico".

(** [sum(1 for x in items if x in text)] *)
Definition count_present (items : list pystr) (text : pystr) : Z :=
  Z.of_nat (length (List.filter (fun x => contains x text) items)).

(** [score += min(n * w, cap)] *)
Definition add_capped (score : F.float) (n : Z) (w cap : F.float) : res F.float :=
  x ← F.of_int n;
  Ok (F.add score (F.min (F.mul x w) cap)).

(** [calculate_confidence_score(self, features)] *)
Definition calculate_confidence_score (features : FeatureSet) : res F.float :=
  let score := F.zero in
  score ← add_capped score (keyword_count features) F.c0_015 F.c0_3;
  score ← add_capped score (citation_count features) F.c0_02 F.c0_3;
  let score := if has_doi features then F.add score F.c0_1 else score in
  let score := if has_issn features then F.add score F.c0_1 else score in
  score ← add_capped score (section_count features) F.c0_04 F.c0_2;
  Ok (F.min score F.c1_0).

Section Methods.
Context {U : Unicode}.

(** The three entries of [self.citation_patterns]. *)
Definition citation_patterns : list Re.pattern :=
  [ (* \([A-Z][a-z]+,?\s+\d{4}\) *)
    [Re.one (Re.chr 40); Re.one upper_az; Re.plus lower_az;
     Re.opt (Re.chr 44); Re.plus isspace; Re.times 4 isdecimal;
     Re.one (Re.chr 41)];
    (* \[[0-9,\s-]+\] *)
    [Re.one (Re.chr 91);
     Re.plus (fun c => ascii_isdigit c || (c =? 44)%N || isspace c || (c =? 45)%N);
     Re.one (Re.chr 93)];
    (* et\s+al\.?,?\s+\d{4} *)
    Re.lits "et" ++ [Re.plus isspace] ++ Re.lits "al" ++
    [Re.opt (Re.chr 46); Re.opt (Re.chr 44); Re.plus isspace;
     Re.times 4 isdecimal] ].

(** r'doi:\s*10\.\d+' *)
Definition doi_pattern : Re.pattern :=
  Re.lits "doi:" ++ [Re.star isspace] ++ Re.lits "10." ++ [Re.plus isdecimal].

(** r'issn[:\s]+\d{4}-?\d{3}[\dxX]' *)
Definition issn_pattern : Re.pattern :=
  Re.lits "issn" ++
  [Re.plus (fun c => (c =? 58)%N || isspace c);
   Re.times 4 isdecimal; Re.opt (Re.chr 45); Re.times 3 isdecimal;
   Re.one (fun c => isdecimal c || (c =? 120)%N || (c =? 88)%N)].

Definition extract_features (text : pystr) : FeatureSet :=
  let text_lower := lower text in
  let keyword_count := count_present scientific_keywords text_lower in
  let citation_count :=
    foldr Z.add 0%Z
      (map (fun pattern => Z.of_nat (length (Re.findall pattern text)))
           citation_patterns) in
  let has_doi := Re.search doi_pattern text_lower in
  let has_issn := Re.search issn_pattern text_lower in
  let section_count := count_present sections text_lower in
  {| keyword_count := keyword_count;
     citation_count := citation_count;
     has_doi := has_doi;
     has_issn := has_issn;
     section_count := section_count |}.

(** [classify(self, text)]; [None] is a missing text. *)
Definition classify (text : option pystr) : res Verdict :=
  match text with
  | None | Some [] =>
      Ok {| is_scientific := false; confidence := F.zero;
            reason := reason_short; features := None |}
  | Some text =>
      if (length (strip text) <? 100)%nat then
        Ok {| is_scientific := false; confidence := F.zero;
              reason := reason_short; features := None |}
      else
        let features := extract_features text in
        confidence ← calculate_confidence_score features;
        let is_scientific := F.leb F.c0_3 confidence in
        Ok {| is_scientific := is_scientific;
              confidence := confidence;
              features := Some features;
              reason := if is_scientific then reason_scientific
                        else reason_not_scientific |}
  end.

End Methods.

End Classifier.

(** ** text_analyzer.py *)

Module TextAnalyzer.

Record TextAnalyzer := { stop_words : gset pystr }.

Definition extra_stop_words : list pystr :=
  map lit ["et"; "al"; "fig"; "figure"; "table"; "doi"; "http"; "https";
           "www"; "com"; "org"; "edu"; "vol"; "pp"; "eds"; "ed"]%string.

(** [__init__].  The two NLTK lists come from outside the repository:
    [Some (portuguese, english)] when they load, [None] when loading
    raises and the [except] branch starts from the empty set. *)
Definition init (nltk : option (list pystr * list pystr)) : TextAnalyzer :=
  let base : gset pystr :=
    match nltk with
    | Some (pt, en) => list_to_set pt ∪ list_to_set en
    | None => ∅
    end in
  {| stop_words := base ∪ list_to_set extra_stop_words |}.

(** r'\n\s*\n+' *)
Definition paragraph_sep : Re.pattern :=
  [Re.one (Re.chr 10); Re.star isspace; Re.plus (Re.chr 10)].

(** [a-zA-ZáéíóúàèìòùâêîôûãõçÁÉÍÓÚÀÈÌÒÙÂÊÎÔÛÃÕÇ] *)
Definition accented : list char :=
  [225; 233; 237; 243; 250; 224; 232; 236; 242; 249; 226; 234; 238; 244;
   251; 227; 245; 231; 193; 201; 205; 211; 218; 192; 200; 204; 210; 217;
   194; 202; 206; 212; 219; 195; 213; 199]%N.

Definition letter (c : char) : bool :=
  ((97 <=? c) && (c <=? 122) || (65 <=? c) && (c <=? 90))%N
  || existsb (N.eqb c) accented.

(** r'\b[a-zA-Zá...Ç]+\b' *)
Definition word_pattern : Re.pattern := [Re.WordB; Re.plus letter; Re.WordB].

(** The body of the loop of [detect_paragraphs] over the candidate
    blocks. *)
Fixpoint clean_paragraphs (paragraphs : list pystr) : list pystr :=
  match paragraphs with
  | [] => []
  | para :: rest =>
      let para := join (lit " ") (Py.split para) in
      let para := strip para in
      if 3 <=? length (Py.split para)
      then para :: clean_paragraphs rest
      else clean_paragraphs rest
  end.

(** A ranking entry of [Counter]: insertion order is kept. *)
Fixpoint counter_add (w : pystr) (c : list (pystr * Z)) : list (pystr * Z) :=
  match c with
  | [] => [(w, 1%Z)]
  | (w', n) :: c' =>
      if decide (w = w') then (w', (n + 1)%Z) :: c'
      else (w', n) :: counter_add w c'
  end.

(** [Counter(words)] *)
Definition Counter (words : list pystr) : list (pystr * Z) :=
  foldl (fun c w => counter_add w c) [] words.

(** One step of a stable sort by descending count: [x] goes before the
    first entry whose count is not greater than its own. *)
Fixpoint insert_desc (x : pystr * Z) (l : list (pystr * Z)) : list (pystr * Z) :=
  match l with
  | [] => [x]
  | y :: l' => if (x.2 <? y.2)%Z then y :: insert_desc x l' else x :: l
  end.

(** [sorted(items, key=itemgetter(1), reverse=True)] *)
Definition sorted_desc (l : list (pystr * Z)) : list (pystr * Z) :=
  foldr insert_desc [] l.

(** [Counter.most_common(n)] is [heapq.nlargest(n, items, key=count)],
    documented as [sorted(items, key=count, reverse=True)[:n]]; a
    non-positive [n] gives the empty list. *)
Definition most_common (n : Z) (c : list (pystr * Z)) : list (pystr * Z) :=
  take (Z.to_nat n) (sorted_desc c).

Record AnalysisResult := {
  paragraphs : list pystr;
  paragraph_count : Z;
  body_text : pystr;
  word_count : Z;
  top_words : list (pystr * Z)
}.

Section Methods.
Context {U : Unicode}.
Variable self : TextAnalyzer.

Definition detect_paragraphs (text : pystr) : list pystr :=
  match text with
  | [] => []
  | _ =>
      let text := strip text in
      let paragraphs := Re.split paragraph_sep text in
      clean_paragraphs paragraphs
  end.

Definition count_paragraphs (paragraphs : list pystr) : Z :=
  Z.of_nat (length paragraphs).

Definition extract_body_text (paragraphs : list pystr) : pystr :=
  join [10; 10]%N paragraphs.

Definition count_words (text : pystr) : Z :=
  match text with
  | [] => 0
  | _ => Z.of_nat (length (Re.findall word_pattern (lower text)))
  end.

Definition tokenize_words (text : pystr) : list pystr :=
  match text with
  | [] => []
  | _ =>
      let text_lower := lower text in
      Re.findall word_pattern text_lower
  end.

Definition remove_stopwords (words : list pystr) : list pystr :=
  List.filter
    (fun word => bool_decide (word ∉ stop_words self) && (2 <? length word))
    words.

(** The words that [calculate_word_frequency] counts. *)
Definition counted_tokens (text : pystr) (remove_stop_words : option bool) : list pystr :=
  if default true remove_stop_words
  then remove_stopwords (tokenize_words text)
  else tokenize_words text.

(** [calculate_word_frequency(self, text, top_n=10,
    remove_stop_words=True)]; [None] is an argument left to its default. *)
Definition calculate_word_frequency (text : pystr) (top_n : option Z)
    (remove_stop_words : option bool) : list (pystr * Z) :=
  let top_n := default 10%Z top_n in
  let remove_stop_words := default true remove_stop_words in
  match text with
  | [] => []
  | _ =>
      let words := tokenize_words text in
      let words := if remove_stop_words then remove_stopwords words else words in
      let word_freq := Counter words in
      most_common top_n word_freq
  end.

Definition analyze_text (text : pystr) : AnalysisResult :=
  let paragraphs := detect_paragraphs text in
  let paragraph_count := count_paragraphs paragraphs in
  let body_text := extract_body_text paragraphs in
  let word_count := count_words body_text in
  let top_words := calculate_word_frequency body_text (Some 10%Z) None in
  {| paragraphs := paragraphs;
     paragraph_count := paragraph_count;
     body_text := body_text;
     word_count := word_count;
     top_words := top_words |}.

(** The dictionary that [analyze_text] returns, as [main.py] hands it
    to [check_compliance]. *)
Definition analysis_dict (a : AnalysisResult) : gmap string pyval :=
  <["paragraphs" := PyStrList (paragraphs a)]>
  (<["paragraph_count" := PyInt (paragraph_count a)]>
  (<["body_text" := PyStr (body_text a)]>
  (<["word_count" := PyInt (word_count a)]>
  (<["top_words" := PyFreqList (top_words a)]> ∅)))).

End Methods.

End TextAnalyzer.

(** ** compliance_validator.py *)

Module Compliance.

Record ComplianceValidator := {
  use_llm : bool;
  min_words : Z;
  min_paragraphs : Z
}.

(** [__init__(self, use_llm=False)] *)
Definition init (llm : bool) : ComplianceValidator :=
  {| use_llm := llm; min_words := 2000; min_paragraphs := 5 |}.

Record Requirements := {
  req_min_words : Z;
  req_min_paragraphs : Z
}.

Record ComplianceVerdict := {
  is_compliant : bool;
  word_count : Z;
  paragraph_count : Z;
  requirements : Requirements;
  reasons : list pystr
}.

(** f"Palavras: {word_count} (mínimo: {self.min_words})" *)
Definition words_reason (wc mw : Z) : pystr :=
  lit "Palavras: " ++ str_of_int wc ++ lit " (m" ++ [237%N] ++ lit "nimo: "
    ++ str_of_int mw ++ lit ")".

(** f"Parágrafos: {paragraph_count} (mínimo: {self.min_paragraphs})" *)
Definition paragraphs_reason (pc mp : Z) : pystr :=
  lit "Par" ++ [225%N] ++ lit "grafos: " ++ str_of_int pc ++ lit " (m"
    ++ [237%N] ++ lit "nimo: " ++ str_of_int mp ++ lit ")".

(** [check_compliance(self, analysis)].  Both counts are compared with
    an [int] on every path before the result is built, so a value that
    is not a number ends the call with [TypeError]. *)
Definition check_compliance (self : ComplianceValidator)
    (analysis : gmap string pyval) : res ComplianceVerdict :=
  wc ← as_int (dict_get analysis "word_count" (PyInt 0));
  pc ← as_int (dict_get analysis "paragraph_count" (PyInt 0));
  let compliant := (min_words self <? wc)%Z && (min_paragraphs self <? pc)%Z in
  let rs := [] in
  let rs := if (wc <=? min_words self)%Z
            then rs ++ [words_reason wc (min_words self)] else rs in
  let rs := if (pc <=? min_paragraphs self)%Z
            then rs ++ [paragraphs_reason pc (min_paragraphs self)] else rs in
  Ok {| is_compliant := compliant;
        word_count := wc;
        paragraph_count := pc;
        requirements := {| req_min_words := min_words self;
                           req_min_paragraphs := min_paragraphs self |};
        reasons := if negb compliant then rs else [] |}.

End Compliance.

(** ** Vocabulary of the statements *)

(** The declarative reading of a pattern: [matches p prev s n] when the
    first [n] characters of [s], with [prev] before them, are a
    concatenation of runs, one per node, each within its bounds. *)
Module ReSpec.

Definition within (hi : option nat) (k : nat) : Prop :=
  match hi with Some h => k <= h | None => True end.

Section Matches.
Context {U : Unicode}.
Import Re.

Inductive matches : pattern -> option char -> pystr -> nat -> Prop :=
| matches_nil prev s : matches [] prev s 0
| matches_wordb p prev s n :
    at_boundary prev s = true -> matches p prev s n ->
    matches (WordB :: p) prev s n
| matches_rep cls lo hi p prev s k n :
    lo <= k -> within hi k -> k <= length s ->
    Forall (fun c => cls c = true) (take k s) ->
    matches p (last_char prev (take k s)) (drop k s) n ->
    matches (Rep cls lo hi :: p) prev s (k + n).

End Matches.

(** A pattern with a node that must take at least one character. *)
Definition consumes (p : Re.pattern) : Prop :=
  Exists (fun n => match n with
                   | Re.Rep _ lo _ => 1 <= lo
                   | Re.WordB => False
                   end) p.

End ReSpec.

(** The words of the segmentation contract. *)
Module SegSpec.

(** A whitespace-delimited token. *)
Definition is_token (w : pystr) : Prop :=
  w <> [] /\ Forall (fun c => isspace c = false) w.

(** A newline, optional whitespace, one or more further newlines. *)
Definition blank_line_sep (sep : pystr) : Prop :=
  exists ws nls,
    sep = 10%N :: ws ++ nls /\
    Forall (fun c => isspace c = true) ws /\
    nls <> [] /\ Forall (fun c => c = 10%N) nls.

(** No separator occurs inside the block. *)
Definition sep_free (b : pystr) : Prop :=
  forall pre sep post, b = pre ++ sep ++ post -> ~ blank_line_sep sep.

(** Blocks with the separators that stood between them. *)
Fixpoint interleave (blocks seps : list pystr) : pystr :=
  match blocks, seps with
  | b :: bs, s :: ss => b ++ s ++ interleave bs ss
  | b :: _, [] => b
  | [], _ => []
  end.

(** Whitespace runs collapsed to single spaces, ends trimmed. *)
Definition collapse (b : pystr) : pystr := join (lit " ") (Py.split b).

Definition enough_tokens (b : pystr) : bool := 3 <=? length (Py.split b).

(** A paragraph as the segmenter emits it: at least three tokens joined
    by single spaces. *)
Definition clean_par (p : pystr) : Prop :=
  exists ws, Forall is_token ws /\ 3 <= length ws /\ p = join (lit " ") ws.

(** A string that is empty or has no whitespace at either end. *)
Definition trimmed (s : pystr) : Prop :=
  s = [] \/ exists a b, head s = Some a /\ last s = Some b /\
                        isspace a = false /\ isspace b = false.

(** What may follow a token. *)
Definition ends_word (rest : pystr) : Prop :=
  rest = [] \/ exists c r, rest = c :: r /\ isspace c = true.

Definition prepend (p : pystr) (l : list pystr) : list pystr :=
  match l with
  | b :: bs => (p ++ b) :: bs
  | [] => [p]
  end.

End SegSpec.

(** The words of the ranking contract. *)
Module RankSpec.

(** How often [w] occurs in the token stream. *)
Definition occurrences (w : pystr) (toks : list pystr) : Z :=
  Z.of_nat (length (List.filter (fun x => bool_decide (x = w)) toks)).

(** Where [w] first appears in the token stream. *)
Fixpoint index_of (w : pystr) (toks : list pystr) : nat :=
  match toks with
  | [] => 0
  | x :: l => if decide (x = w) then 0 else S (index_of w l)
  end.

Definition seen_before (toks : list pystr) (x y : pystr * Z) : Prop :=
  index_of x.1 toks < index_of y.1 toks.

(** [x] is ranked above [y]: a greater count, or the same count and an
    earlier first appearance. *)
Definition ranks_before (toks : list pystr) (x y : pystr * Z) : Prop :=
  (y.2 < x.2)%Z \/ (x.2 = y.2 /\ index_of x.1 toks < index_of y.1 toks).

(** The invariant of [Counter] over the tokens counted so far. *)
Definition counter_inv (toks : list pystr) (c : list (pystr * Z)) : Prop :=
  NoDup c.*1 /\
  (forall w, w ∈ c.*1 <-> w ∈ toks) /\
  (forall w k, (w, k) ∈ c -> k = occurrences w toks) /\
  StronglySorted (seen_before toks) c.

End RankSpec.

(** Patterns and contexts on ASCII text. *)
Module AsciiSpec.

(** Two nodes that cannot be told apart on ASCII text. *)
Definition node_agree (n1 n2 : Re.node) : Prop :=
  match n1, n2 with
  | Re.WordB, Re.WordB => True
  | Re.Rep c1 lo1 hi1, Re.Rep c2 lo2 hi2 =>
      lo1 = lo2 /\ hi1 = hi2 /\ forall c, is_ascii c -> c1 c = c2 c
  | _, _ => False
  end.

Definition ascii_prev (prev : option N) : Prop :=
  forall c, prev = Some c -> is_ascii c.

End AsciiSpec.

(** The words of the scoring contract. *)
Module ScoreSpec.
Import Classifier.

(** [min(n * w, cap)], the contribution of one count. *)
Definition contribution (n : Z) (w cap : F.float) : res F.float :=
  x ← F.of_int n;
  Ok (F.min (F.mul x w) cap).

Definition bonus (present : bool) : F.float := if present then F.c0_1 else F.zero.

(** The sum of the five contributions in order, clamped to 1.0. *)
Definition weighted_sum (f : FeatureSet) : res F.float :=
  a ← contribution (keyword_count f) F.c0_015 F.c0_3;
  b ← contribution (citation_count f) F.c0_02 F.c0_3;
  s ← contribution (section_count f) F.c0_04 F.c0_2;
  Ok (F.min
        (F.add (F.add (F.add (F.add (F.add F.zero a) b) (bonus (has_doi f)))
                  (bonus (has_issn f))) s)
        F.c1_0).

(** Counts that a text can produce: not negative, and far below the
    range where [float(n)] overflows. *)
Definition count_ok (n : Z) : Prop := (0 <= n < 2 ^ 1023)%Z.

Definition valid_features (f : FeatureSet) : Prop :=
  count_ok (keyword_count f) /\ count_ok (citation_count f) /\
  count_ok (section_count f).

Definition with_keywords (f : FeatureSet) (n : Z) : FeatureSet :=
  {| keyword_count := n; citation_count := citation_count f;
     has_doi := has_doi f; has_issn := has_issn f;
     section_count := section_count f |}.

Definition with_citations (f : FeatureSet) (n : Z) : FeatureSet :=
  {| keyword_count := keyword_count f; citation_count := n;
     has_doi := has_doi f; has_issn := has_issn f;
     section_count := section_count f |}.

Definition with_sections (f : FeatureSet) (n : Z) : FeatureSet :=
  {| keyword_count := keyword_count f; citation_count := citation_count f;
     has_doi := has_doi f; has_issn := has_issn f;
     section_count := n |}.

(** The counts cut at their saturation points. *)
Definition saturated (f : FeatureSet) : FeatureSet :=
  {| keyword_count := Z.min (keyword_count f) 20;
     citation_count := Z.min (citation_count f) 15;
     has_doi := has_doi f; has_issn := has_issn f;
     section_count := Z.min (section_count f) 5 |}.

Definition sf_eqb (x y : F.float) : bool :=
  match x, y with
  | S754_zero a, S754_zero b => Bool.eqb a b
  | S754_infinity a, S754_infinity b => Bool.eqb a b
  | S754_nan, S754_nan => true
  | S754_finite a m e, S754_finite b m' e' =>
      Bool.eqb a b && (m =? m')%positive && (e =? e')%Z
  | _, _ => false
  end.

(** The value of a call, NaN standing for a raised exception. *)
Definition value (r : res F.float) : F.float :=
  match r with Ok x => x | Raise _ => S754_nan end.

Definition grid (ks cs ss : list Z) : list FeatureSet :=
  k ← ks; c ← cs; d ← [false; true]; i ← [false; true]; s ← ss;
  [ {| keyword_count := k; citation_count := c; has_doi := d; has_issn := i;
       section_count := s |} ].

(** Every feature set whose counts are at or below saturation. *)
Definition features_grid : list FeatureSet :=
  grid (seqZ 0 21) (seqZ 0 16) (seqZ 0 6).

(** Every element is at most itself and each later one. *)
Fixpoint ascending (l : list F.float) : bool :=
  match l with
  | [] => true
  | x :: l' => forallb (F.leb x) l && ascending l'
  end.

Definition score_ok (f : FeatureSet) : bool :=
  match calculate_confidence_score f, weighted_sum f with
  | Ok x, Ok y => sf_eqb x y && F.leb F.zero x && F.leb x F.c1_0
  | _, _ => false
  end.

(** From [lo] up to [lo + len - 1] the contribution is the cap. *)
Definition saturates_on (w cap : F.float) (lo len : Z) : bool :=
  forallb (fun n => sf_eqb (value (contribution n w cap)) cap) (seqZ lo len).

(** Up to [hi - 1] the contribution is at most the cap. *)
Definition capped_on (w cap : F.float) (hi : Z) : bool :=
  forallb (fun n => F.leb (value (contribution n w cap)) cap) (seqZ 0 hi).

Definition scores (fs : list FeatureSet) : list F.float :=
  map (fun f => value (calculate_confidence_score f)) fs.

(** [g] scores at most what [g'] scores. *)
Definition scores_le (g g' : FeatureSet) : Prop :=
  exists x x', calculate_confidence_score g = Ok x /\
               calculate_confidence_score g' = Ok x' /\
               F.leb x x' = true.

(** Fifteen bracketed citations and nothing else of note, 110
    characters: the confidence is exactly 0.3. *)
Definition boundary_text : pystr :=
  lit "[1] [2] [3] [4] [5] [6] [7] [8] [9] [10] [11] [12] [13] [14] [15] zzzzzzzzzzzzzzzzzzzzzzzzzzzzzzzzzzzzzzzzzzzzz".

End ScoreSpec.

(** The words of the DOI and ISSN contract. *)
Module FeatureSpec.
Section Shapes.
Context {U : Unicode}.

(** [t] holds a substring of the given shape. *)
Definition occurs (shape : pystr -> Prop) (t : pystr) : Prop :=
  exists pre m post, t = pre ++ m ++ post /\ shape m.

(** [doi:], at least [min_ws] whitespace characters, [10.], digits. *)
Definition doi_shape (min_ws : nat) (m : pystr) : Prop :=
  exists ws ds,
    m = lit "doi:" ++ ws ++ lit "10." ++ ds /\
    min_ws <= length ws /\ Forall (fun c => isspace c = true) ws /\
    1 <= length ds /\ Forall (fun c => isdecimal c = true) ds.

(** [issn], at least [min_sep] colons or whitespace characters, four
    digits, an optional hyphen, three digits, a digit or x or X. *)
Definition issn_shape (min_sep : nat) (m : pystr) : Prop :=
  exists sep d4 hy d3 x,
    m = lit "issn" ++ sep ++ d4 ++ hy ++ d3 ++ [x] /\
    min_sep <= length sep /\
    Forall (fun c => ((c =? 58)%N || isspace c) = true) sep /\
    length d4 = 4 /\ Forall (fun c => isdecimal c = true) d4 /\
    (hy = [] \/ hy = [45%N]) /\
    length d3 = 3 /\ Forall (fun c => isdecimal c = true) d3 /\
    (isdecimal x || (x =? 120)%N || (x =? 88)%N) = true.

End Shapes.
End FeatureSpec.

(* ===================================================================== *)
(** * Part II.  Properties                                                *)
(* ===================================================================== *)

(** ** The matcher against the declarative reading of a pattern *)

Section EngineFacts.
Context {U : Unicode}.
Import Re ReSpec.

Lemma run_spec cls hi s k :
  k <= run cls hi s <->
  k <= length s /\ Forall (fun c => cls c = true) (take k s) /\ within hi k.
Proof.
  revert hi k. induction s as [|c s IH]; intros hi k; simpl.
  - split.
    + intros Hk. assert (k = 0) as -> by lia. simpl.
      repeat split; auto. destruct hi; simpl; lia.
    + lia.
  - destruct k as [|k].
    { simpl. split; [|lia]. intros _. repeat split; auto; [lia|].
      destruct hi; simpl; lia. }
    simpl. destruct (cls c) eqn:Ec.
    + destruct hi as [[|h]|]; simpl.
      * split; [lia|]. intros (_ & _ & ?). lia.
      * rewrite <- Nat.succ_le_mono, (IH (Some h) k). simpl.
        rewrite Forall_cons. split.
        -- intros (? & ? & ?). repeat split; auto; lia.
        -- intros (? & (_ & ?) & ?). repeat split; auto; lia.
      * rewrite <- Nat.succ_le_mono, (IH None k). simpl.
        rewrite Forall_cons. split.
        -- intros (? & ? & ?). repeat split; auto; lia.
        -- intros (? & (_ & ?) & ?). repeat split; auto; lia.
    + split; [lia|]. rewrite Forall_cons. intros (_ & (? & _) & _). congruence.
Qed.

Lemma backtrack_sound {A} (f : nat -> option A) lo n r :
  backtrack f lo n = Some r -> exists k, lo <= k <= n /\ f k = Some r.
Proof.
  induction n as [|n IH]; simpl.
  - destruct (Nat.ltb_spec 0 lo); [discriminate|].
    destruct (f 0) eqn:E; [|discriminate]. intros [= <-]. exists 0. split; [lia|done].
  - destruct (Nat.ltb_spec (S n) lo); [discriminate|].
    destruct (f (S n)) eqn:E.
    + intros [= <-]. exists (S n). split; [lia|done].
    + intros H'. destruct (IH H') as (k & ? & ?). exists k. split; [lia|done].
Qed.

Lemma backtrack_complete {A} (f : nat -> option A) lo n k :
  lo <= k <= n -> is_Some (f k) -> is_Some (backtrack f lo n).
Proof.
  induction n as [|n IH]; simpl; intros Hk Hf.
  - assert (k = 0) as -> by lia. destruct (Nat.ltb_spec 0 lo); [lia|].
    destruct Hf as [r ->]. eauto.
  - destruct (Nat.ltb_spec (S n) lo); [lia|].
    destruct (f (S n)) eqn:E; [eauto|].
    destruct (decide (k = S n)) as [->|]; [rewrite E in Hf; by destruct Hf|].
    apply IH; [lia|done].
Qed.

Lemma match_here_sound p prev s n :
  match_here p prev s = Some n -> matches p prev s n.
Proof.
  revert prev s n. induction p as [|[cls lo hi|] p IH]; intros prev s n; simpl.
  - intros [= <-]. constructor.
  - intros H. apply backtrack_sound in H as (k & Hk & H).
    destruct (match_here p _ _) as [m|] eqn:E; simpl in H; [|discriminate].
    injection H as <-.
    destruct Hk as [Hlo Hrun]. apply run_spec in Hrun as (? & ? & ?).
    constructor; auto.
  - destruct (at_boundary prev s) eqn:E; [|discriminate].
    intros H. constructor; auto.
Qed.

Lemma match_here_complete p prev s n :
  matches p prev s n -> is_Some (match_here p prev s).
Proof.
  induction 1 as [| p prev s n Hb _ IH | cls lo hi p prev s k n Hlo Hhi Hlen Hall _ IH]; simpl.
  - eauto.
  - by rewrite Hb.
  - apply (backtrack_complete _ lo _ k).
    + split; [done|]. apply run_spec. auto.
    + destruct IH as [m ->]. simpl. eauto.
Qed.

(** No match of a consuming pattern is empty, so [findall] and [split]
    never meet the empty-match rules of [re]. *)
Lemma matches_consumes p prev s n : consumes p -> matches p prev s n -> 1 <= n.
Proof.
  intros Hc Hm. induction Hm as [| p prev s n _ _ IH | cls lo hi p prev s k n Hlo _ _ _ _ IH].
  - by apply Exists_nil in Hc.
  - apply Exists_cons in Hc as [[]|Hc]. by apply IH.
  - apply Exists_cons in Hc as [Hc|Hc]; [lia|]. specialize (IH Hc). lia.
Qed.

Lemma match_here_consumes p prev s n :
  consumes p -> match_here p prev s = Some n -> 1 <= n.
Proof. intros Hc Hm. eapply matches_consumes; [done|by apply match_here_sound]. Qed.

Lemma matches_length p prev s n : matches p prev s n -> n <= length s.
Proof.
  induction 1; simpl; [lia|done|]. rewrite length_drop in *. lia.
Qed.

End EngineFacts.

(** ** Splitting on whitespace, joining, trimming *)

Section StringFacts.
Import SegSpec.

Lemma is_token_cons c w :
  isspace c = false -> Forall (fun c => isspace c = false) w -> is_token (c :: w).
Proof. intros. split; [done|]. by constructor. Qed.

Lemma split_tokens s : Forall is_token (Py.split s).
Proof.
  induction s as [|c s IH]; simpl; [constructor|].
  destruct (isspace c) eqn:Ec; [done|].
  destruct (starts_word s).
  - destruct (Py.split s) as [|w l]; simpl.
    + constructor; [|constructor]. by apply is_token_cons.
    + inversion IH as [|? ? [_ Hw] Hl]; subst. constructor; [|done].
      by apply is_token_cons.
  - constructor; [|done]. by apply is_token_cons.
Qed.

Lemma starts_word_ends rest : ends_word rest -> starts_word rest = false.
Proof. intros [->|(c & r & -> & Hc)]; simpl; [done|]. by rewrite Hc. Qed.

Lemma split_token_app w rest :
  is_token w -> ends_word rest -> Py.split (w ++ rest) = w :: Py.split rest.
Proof.
  intros [Hne Hw] Hrest. induction w as [|c w IH]; [done|].
  inversion Hw as [|? ? Hc Hw']; subst. simpl. rewrite Hc.
  destruct w as [|c' w].
  - simpl. by rewrite (starts_word_ends _ Hrest).
  - assert (isspace c' = false) as Hc' by (by inversion Hw').
    simpl starts_word. rewrite Hc'. simpl negb. cbv iota.
    rewrite IH; [done|done|done].
Qed.

Lemma split_join_tokens ws :
  Forall is_token ws -> Py.split (join (lit " ") ws) = ws.
Proof.
  induction ws as [|w ws IH]; intros Hws; [done|].
  inversion Hws as [|? ? Hw Hws']; subst.
  destruct ws as [|w' ws].
  - simpl. rewrite <- (app_nil_r w) at 1.
    rewrite split_token_app; [done|done|by left].
  - change (join (lit " ") (w :: w' :: ws))
      with (w ++ 32%N :: join (lit " ") (w' :: ws)).
    rewrite split_token_app; [|done|right; eexists _, _; split; [done|done]].
    f_equal. change (Py.split (32%N :: ?x)) with (Py.split x).
    by apply IH.
Qed.

Lemma lstrip_fixed s c r : s = c :: r -> isspace c = false -> lstrip s = s.
Proof. intros -> H. simpl. by rewrite H. Qed.

Lemma strip_trimmed s : trimmed s -> strip s = s.
Proof.
  intros [->|(a & b & Ha & Hb & Hsa & Hsb)]; [done|].
  unfold strip, rstrip.
  destruct s as [|c r]; [done|]. injection Ha as ->.
  rewrite (lstrip_fixed (a :: r) a r); [|done|done].
  destruct (rev (a :: r)) as [|c' r'] eqn:E.
  - apply (f_equal (@rev _)) in E. rewrite rev_involutive in E. done.
  - assert (c' = b) as ->.
    { apply (f_equal (@rev _)) in E. rewrite rev_involutive in E. rewrite E in Hb.
      simpl in Hb. rewrite last_snoc in Hb. congruence. }
    rewrite (lstrip_fixed (b :: r') b r'); [|done|done].
    rewrite <- E. apply rev_involutive.
Qed.

Lemma token_trimmed w : is_token w -> trimmed w.
Proof.
  intros [Hne Hw]. right.
  destruct w as [|a r]; [done|].
  destruct (last (a :: r)) as [b|] eqn:Hl; [|by apply last_None in Hl].
  exists a, b. split; [done|]. split; [done|]. split.
  - by inversion Hw.
  - rewrite Forall_forall in Hw. apply Hw.
    apply last_Some in Hl as [l' El]. rewrite El. set_solver.
Qed.

Lemma trimmed_app s x t :
  trimmed s -> s <> [] -> trimmed t -> t <> [] -> trimmed (s ++ x ++ t).
Proof.
  intros [->|(a & b & Ha & Hb & Hsa & Hsb)] Hs; [done|].
  intros [->|(a' & b' & Ha' & Hb' & Hsa' & Hsb')] Ht; [done|].
  right. exists a, b'. split; [|split; [|done]].
  - destruct s; [done|]. done.
  - rewrite app_assoc. apply last_Some in Hb' as [l' ->].
    rewrite app_assoc. by rewrite last_snoc.
Qed.

Lemma join_cons2 sep w w' ws :
  join sep (w :: w' :: ws) = w ++ sep ++ join sep (w' :: ws).
Proof. done. Qed.

Lemma join_nonempty sep w ws : w <> [] -> join sep (w :: ws) <> [].
Proof.
  intros Hw. destruct ws; simpl; [done|]. by destruct w.
Qed.

Lemma join_trimmed sep ws :
  Forall (fun w => trimmed w /\ w <> []) ws -> trimmed (join sep ws).
Proof.
  induction ws as [|w ws IH]; intros Hws; [by left|].
  inversion Hws as [|? ? [Hw Hne] Hws']; subst.
  destruct ws as [|w' ws]; [done|].
  rewrite join_cons2. apply trimmed_app; [done|done|by apply IH|].
  inversion Hws' as [|? ? [_ Hne'] _]; subst. by apply join_nonempty.
Qed.

End StringFacts.

(** ** Paragraph segmentation *)

Section SegmentationFacts.
Context {U : Unicode}.
Import Re ReSpec SegSpec TextAnalyzer.

Lemma matches_rep_inv cls lo hi p prev s n :
  matches (Rep cls lo hi :: p) prev s n ->
  exists k m, n = k + m /\ lo <= k /\ within hi k /\ k <= length s /\
    Forall (fun c => cls c = true) (take k s) /\
    matches p (last_char prev (take k s)) (drop k s) m.
Proof. inversion 1; subst. eauto 10. Qed.

Lemma matches_one_inv cls p prev s n :
  matches (one cls :: p) prev s n ->
  exists c s' m, s = c :: s' /\ cls c = true /\ n = S m /\ matches p (Some c) s' m.
Proof.
  intros H. apply matches_rep_inv in H as (k & m & -> & Hlo & Hhi & Hlen & Hall & H).
  simpl in Hhi. assert (k = 1) as -> by lia.
  destruct s as [|c s']; [simpl in Hlen; lia|].
  exists c, s', m. simpl in *. inversion Hall; subst. auto.
Qed.

Lemma matches_one cls p prev c s m :
  cls c = true -> matches p (Some c) s m -> matches (one cls :: p) prev (c :: s) (S m).
Proof.
  intros Hc H. apply (matches_rep cls 1 (Some 1) p prev (c :: s) 1 m); simpl; auto with lia.
Qed.

Lemma matches_paragraph_sep prev s n :
  matches paragraph_sep prev s n -> blank_line_sep (take n s).
Proof.
  unfold paragraph_sep. intros H.
  apply matches_one_inv in H as (c & s1 & m & -> & Hc & -> & H).
  apply N.eqb_eq in Hc as <-.
  apply matches_rep_inv in H as (k2 & m2 & -> & _ & _ & Hk2 & Hws & H).
  apply matches_rep_inv in H as (k3 & m3 & -> & Hk3 & _ & Hlen3 & Hnl & H).
  inversion H; subst. rewrite Nat.add_0_r.
  exists (take k2 s1), (take k3 (drop k2 s1)). split; [|split; [done|split]].
  - simpl. f_equal. by rewrite take_take_drop.
  - intros E. apply (f_equal length) in E. rewrite length_take in E. simpl in E. lia.
  - eapply Forall_impl; [exact Hnl|]. intros c Hc. symmetry. by apply N.eqb_eq.
Qed.

Lemma blank_line_sep_matches prev sep rest :
  blank_line_sep sep -> matches paragraph_sep prev (sep ++ rest) (length sep).
Proof.
  intros (ws & nls & -> & Hws & Hne & Hnl). unfold paragraph_sep. simpl.
  apply matches_one; [done|].
  rewrite length_app, <- app_assoc.
  apply matches_rep; simpl; [lia|done|rewrite length_app; lia| |].
  { by rewrite take_app_length. }
  rewrite drop_app_length, <- (Nat.add_0_r (length nls)).
  apply matches_rep; simpl.
  - destruct nls; [done|simpl; lia].
  - done.
  - rewrite length_app; lia.
  - rewrite take_app_length. eapply Forall_impl; [exact Hnl|].
    by intros c ->.
  - constructor.
Qed.

Lemma blank_line_sep_nonempty sep : blank_line_sep sep -> sep <> [].
Proof. by intros (ws & nls & -> & _). Qed.

(** Every character of a separator is whitespace; it starts and ends
    with a newline. *)
Lemma blank_line_sep_space sep :
  blank_line_sep sep -> Forall (fun c => isspace c = true) sep.
Proof.
  intros (ws & nls & -> & Hws & _ & Hnl). constructor; [done|].
  apply Forall_app. split; [done|].
  eapply Forall_impl; [exact Hnl|]. by intros c ->.
Qed.

Lemma split_from_nonempty p prev s skip : split_from p prev s skip <> [].
Proof.
  revert prev skip. induction s as [|c s IH]; intros prev skip; simpl; [done|].
  destruct skip; [|apply IH].
  destruct (match_here p prev (c :: s)) as [[|k]|]; try done;
    specialize (IH (Some c) 0); by destruct (split_from p (Some c) s 0).
Qed.

Lemma split_from_skip p prev s skip :
  skip <= length s ->
  split_from p prev s skip =
    split_from p (last_char prev (take skip s)) (drop skip s) 0.
Proof.
  revert prev skip. induction s as [|c s IH]; intros prev skip Hlen.
  - simpl in Hlen. assert (skip = 0) as -> by lia. done.
  - destruct skip as [|k]; [done|]. simpl in Hlen.
    change (split_from p prev (c :: s) (S k)) with (split_from p (Some c) s k).
    rewrite IH by lia. simpl drop. f_equal.
    unfold last_char. simpl take.
    destruct (take k s) as [|c' l] eqn:E; [done|].
    change (last (c :: c' :: l)) with (last (c' :: l)).
    destruct (last (c' :: l)) eqn:El; [done|]. by apply last_None in El.
Qed.

(** The pieces that [re.split] returns on the separator pattern, put
    back together with what was matched in between. *)
Lemma split_decomposition s : forall prev,
  exists seps,
    length (split_from paragraph_sep prev s 0) = S (length seps) /\
    s = interleave (split_from paragraph_sep prev s 0) seps /\
    Forall blank_line_sep seps /\
    Forall sep_free (split_from paragraph_sep prev s 0).
Proof.
  remember (length s) as n eqn:Hn. revert s Hn.
  induction n as [n IH] using lt_wf_ind. intros s Hn prev.
  destruct s as [|c s].
  { exists []. simpl. repeat split; [constructor|].
    constructor; [|constructor]. intros pre sep post E.
    symmetry in E. apply app_eq_nil in E as [_ E]. apply app_eq_nil in E as [-> _].
    intros Hs. by apply blank_line_sep_nonempty in Hs. }
  change (split_from paragraph_sep prev (c :: s) 0) with
    (match match_here paragraph_sep prev (c :: s) with
     | Some (S k) => [] :: split_from paragraph_sep (Some c) s k
     | _ => cons_head c (split_from paragraph_sep (Some c) s 0)
     end).
  assert (forall m, match_here paragraph_sep prev (c :: s) = Some m ->
            exists k, m = S k /\ k <= length s /\
                      blank_line_sep (take (S k) (c :: s))) as Hsome.
  { intros m Hm. apply match_here_sound in Hm.
    pose proof (matches_length _ _ _ _ Hm) as Hlen.
    apply matches_paragraph_sep in Hm.
    destruct m as [|k]; [by apply blank_line_sep_nonempty in Hm|].
    exists k. simpl in Hlen. split; [done|]. split; [lia|done]. }
  assert (match_here paragraph_sep prev (c :: s) = None ->
          forall sep post, c :: s = sep ++ post -> ~ blank_line_sep sep) as Hnone.
  { intros Hm sep post E Hsep.
    pose proof (blank_line_sep_matches prev sep post Hsep) as Hmat.
    rewrite <- E in Hmat. apply match_here_complete in Hmat as [? Hmat]. congruence. }
  destruct (match_here paragraph_sep prev (c :: s)) as [m|] eqn:Em.
  - destruct (Hsome m eq_refl) as (k & -> & Hk & Hsep).
    rewrite split_from_skip by done.
    assert (length (drop k s) < n) as Hlt
      by (subst n; rewrite length_drop; simpl; lia).
    destruct (IH _ Hlt (drop k s) eq_refl (last_char (Some c) (take k s)))
      as (seps & Hlen & Hcat & Hseps & Hfree).
    exists (take (S k) (c :: s) :: seps). split; [simpl; by rewrite Hlen|].
    split; [|split].
    + simpl. f_equal. rewrite <- Hcat. by rewrite take_drop.
    + by constructor.
    + constructor; [|done]. intros pre sep post E.
      symmetry in E. apply app_eq_nil in E as [_ E]. apply app_eq_nil in E as [-> _].
      intros Hs. by apply blank_line_sep_nonempty in Hs.
  - assert (length s < n) as Hlt by (subst n; simpl; lia).
    destruct (IH _ Hlt s eq_refl (Some c)) as (seps & Hlen & Hcat & Hseps & Hfree).
    pose proof (split_from_nonempty paragraph_sep (Some c) s 0) as Hne.
    destruct (split_from paragraph_sep (Some c) s 0) as [|b bs]; [done|].
    exists seps. simpl. split; [done|]. split; [|split; [done|]].
    + destruct seps as [|sp seps]; simpl in *; by rewrite <- Hcat.
    + apply Forall_cons in Hfree as [Hb Hbs]. constructor; [|done].
      intros pre sep post E. destruct pre as [|c' pre].
      * simpl in E. intros Hsep.
        assert (exists post', c :: s = sep ++ post') as [post' E'].
        { destruct seps as [|sp seps]; simpl in Hcat.
          - exists post. rewrite Hcat at 1. exact E.
          - exists (post ++ sp ++ interleave bs seps).
            rewrite Hcat at 1.
            change (c :: b ++ sp ++ interleave bs seps)
              with ((c :: b) ++ sp ++ interleave bs seps).
            rewrite E. by rewrite <- !app_assoc. }
        by apply (Hnone eq_refl sep post' E').
      * injection E as _ E. by apply (Hb pre sep post).
Qed.

Lemma token_nonempty_trimmed ws :
  Forall is_token ws -> Forall (fun w => trimmed w /\ w <> []) ws.
Proof.
  intros H. eapply Forall_impl; [exact H|].
  intros w Hw. split; [by apply token_trimmed|apply Hw].
Qed.

Lemma collapse_fixed b :
  strip (collapse b) = collapse b /\ Py.split (collapse b) = Py.split b.
Proof.
  unfold collapse. split.
  - apply strip_trimmed, join_trimmed, token_nonempty_trimmed, split_tokens.
  - apply split_join_tokens, split_tokens.
Qed.

Lemma clean_paragraphs_spec bs :
  clean_paragraphs bs = map collapse (List.filter enough_tokens bs).
Proof.
  induction bs as [|b bs IH]; [done|].
  destruct (collapse_fixed b) as [E1 E2].
  change (clean_paragraphs (b :: bs)) with
    (if 3 <=? length (Py.split (strip (collapse b)))
     then strip (collapse b) :: clean_paragraphs bs else clean_paragraphs bs).
  rewrite E1, E2. simpl List.filter. unfold enough_tokens at 1.
  destruct (3 <=? length (Py.split b)); simpl; by rewrite IH.
Qed.

Lemma detect_paragraphs_eq text :
  detect_paragraphs text = clean_paragraphs (Re.split paragraph_sep (strip text)).
Proof. by destruct text. Qed.

Lemma clean_par_collapse b : enough_tokens b = true -> clean_par (collapse b).
Proof.
  intros H. exists (Py.split b). split; [apply split_tokens|]. split; [|done].
  unfold enough_tokens in H. by apply Nat.leb_le in H.
Qed.

Lemma detect_paragraphs_clean text : Forall clean_par (detect_paragraphs text).
Proof.
  rewrite detect_paragraphs_eq, clean_paragraphs_spec.
  apply Forall_forall. intros p Hp.
  apply list_elem_of_fmap in Hp as (b & -> & Hb).
  apply list_elem_of_In, filter_In in Hb as [_ Hb]. by apply clean_par_collapse.
Qed.

Lemma clean_par_fixed p :
  clean_par p -> collapse p = p /\ enough_tokens p = true.
Proof.
  intros (ws & Hws & Hlen & ->). unfold collapse, enough_tokens.
  rewrite split_join_tokens by done. split; [done|]. by apply Nat.leb_le.
Qed.

Lemma clean_paragraphs_clean ps : Forall clean_par ps -> clean_paragraphs ps = ps.
Proof.
  intros H. rewrite clean_paragraphs_spec.
  induction H as [|p ps Hp _ IH]; [done|]. simpl.
  destruct (clean_par_fixed p Hp) as [E1 E2]. rewrite E2. simpl. by rewrite E1, IH.
Qed.

Lemma token_no_newline w : is_token w -> Forall (fun c => c <> 10%N) w.
Proof.
  intros [_ H]. eapply Forall_impl; [exact H|]. intros c Hc ->. done.
Qed.

Lemma join_space_no_newline ws :
  Forall is_token ws -> Forall (fun c => c <> 10%N) (join (lit " ") ws).
Proof.
  induction ws as [|w ws IH]; intros H; [constructor|].
  apply Forall_cons in H as [Hw Hws].
  destruct ws as [|w' ws]; [by apply token_no_newline|].
  rewrite join_cons2. apply Forall_app. split; [by apply token_no_newline|].
  apply Forall_app. split; [|by apply IH].
  constructor; [done|constructor].
Qed.

Lemma clean_par_shape p :
  clean_par p ->
  Forall (fun c => c <> 10%N) p /\ trimmed p /\
  exists c r, p = c :: r /\ isspace c = false.
Proof.
  intros (ws & Hws & Hlen & ->). split; [by apply join_space_no_newline|].
  assert (trimmed (join (lit " ") ws)) as Ht
    by apply join_trimmed, token_nonempty_trimmed, Hws.
  split; [done|].
  destruct ws as [|w ws]; [simpl in Hlen; lia|].
  apply Forall_cons in Hws as [[Hne Hw] _].
  assert (join (lit " ") (w :: ws) <> []) as Hj by by apply join_nonempty.
  destruct Ht as [?|(a & b & Ha & _ & Hsa & _)]; [done|].
  destruct (join (lit " ") (w :: ws)) as [|c r]; [done|].
  injection Ha as ->. eauto.
Qed.

Lemma match_here_sep_newline prev c s n :
  match_here paragraph_sep prev (c :: s) = Some n -> c = 10%N.
Proof.
  intros H. apply match_here_sound in H. unfold paragraph_sep in H.
  apply matches_one_inv in H as (c' & s' & m & [= <- <-] & Hc & _).
  symmetry. by apply N.eqb_eq.
Qed.

Lemma split_from_block p rest : forall prev,
  Forall (fun c => c <> 10%N) p ->
  split_from paragraph_sep prev (p ++ rest) 0 =
    prepend p (split_from paragraph_sep (last_char prev p) rest 0).
Proof.
  induction p as [|c p IH]; intros prev Hp.
  - simpl. unfold last_char. simpl.
    pose proof (split_from_nonempty paragraph_sep prev rest 0).
    by destruct (split_from paragraph_sep prev rest 0).
  - apply Forall_cons in Hp as [Hc Hp].
    change (split_from paragraph_sep prev ((c :: p) ++ rest) 0) with
      (match match_here paragraph_sep prev (c :: p ++ rest) with
       | Some (S k) => [] :: split_from paragraph_sep (Some c) (p ++ rest) k
       | _ => cons_head c (split_from paragraph_sep (Some c) (p ++ rest) 0)
       end).
    destruct (match_here paragraph_sep prev (c :: p ++ rest)) as [n|] eqn:E.
    { by apply match_here_sep_newline in E. }
    rewrite IH by done.
    assert (last_char (Some c) p = last_char prev (c :: p)) as ->.
    { unfold last_char. destruct p as [|c' p']; [done|].
      change (last (c :: c' :: p')) with (last (c' :: p')).
      destruct (last (c' :: p')) eqn:El; [done|]. by apply last_None in El. }
    pose proof (split_from_nonempty paragraph_sep (last_char prev (c :: p)) rest 0).
    by destruct (split_from paragraph_sep (last_char prev (c :: p)) rest 0).
Qed.

Lemma split_from_blank_line prev c rest :
  isspace c = false ->
  split_from paragraph_sep prev (10 :: 10 :: c :: rest)%N 0 =
    [] :: split_from paragraph_sep (Some 10%N) (c :: rest) 0.
Proof.
  intros Hc.
  assert (blank_line_sep [10; 10]%N) as Hsep.
  { exists [], [10%N]. split; [done|]. split; [done|]. split; [done|].
    by constructor. }
  pose proof (blank_line_sep_matches prev _ (c :: rest) Hsep) as Hm.
  apply match_here_complete in Hm as [n Hn].
  change ([10; 10]%N ++ c :: rest) with (10 :: 10 :: c :: rest)%N in Hn.
  assert (n = 2) as ->.
  { pose proof Hn as Hs. apply match_here_sound in Hs.
    apply matches_paragraph_sep in Hs.
    pose proof (blank_line_sep_space _ Hs) as Hall.
    destruct Hs as (ws & nls & E & _ & Hne & _).
    destruct n as [|[|[|n]]]; [done| | done|].
    - simpl in E. injection E as E. symmetry in E.
      apply app_eq_nil in E as [_ E]. done.
    - simpl in Hall. rewrite !Forall_cons in Hall.
      destruct Hall as (_ & _ & Hc' & _). congruence. }
  change (split_from paragraph_sep prev (10 :: 10 :: c :: rest)%N 0) with
    (match match_here paragraph_sep prev (10 :: 10 :: c :: rest)%N with
     | Some (S k) => [] :: split_from paragraph_sep (Some 10%N) (10 :: c :: rest)%N k
     | _ => cons_head 10%N (split_from paragraph_sep (Some 10%N) (10 :: c :: rest)%N 0)
     end).
  by rewrite Hn.
Qed.

Lemma split_body ps : forall prev,
  ps <> [] -> Forall clean_par ps ->
  split_from paragraph_sep prev (join [10; 10]%N ps) 0 = ps.
Proof.
  induction ps as [|p ps IH]; intros prev Hne Hps; [done|].
  apply Forall_cons in Hps as [Hp Hps].
  destruct (clean_par_shape p Hp) as (Hnl & _ & _).
  destruct ps as [|p' ps].
  - simpl. rewrite <- (app_nil_r p) at 1. rewrite split_from_block by done.
    simpl. by rewrite app_nil_r.
  - rewrite join_cons2. rewrite split_from_block by done.
    pose proof Hps as Hps'. apply Forall_cons in Hps' as [Hp' _].
    destruct (clean_par_shape p' Hp') as (_ & _ & c & r & -> & Hc).
    assert (exists rest, join [10; 10]%N ((c :: r) :: ps) = c :: rest) as [rest E].
    { destruct ps; simpl; eauto. }
    rewrite E. simpl app. rewrite split_from_blank_line by done.
    rewrite <- E, IH by done. simpl. by rewrite app_nil_r.
Qed.

Lemma body_trimmed ps :
  Forall clean_par ps -> strip (join [10; 10]%N ps) = join [10; 10]%N ps.
Proof.
  intros H. apply strip_trimmed, join_trimmed.
  eapply Forall_impl; [exact H|]. intros p Hp.
  destruct (clean_par_shape p Hp) as (_ & Ht & c & r & -> & _). done.
Qed.

(** C5: segmentation of [text].  The empty text gives no paragraph.
    In general the trimmed text is a sequence of blocks with separators
    between them, in source order; every separator is a newline, then
    optional whitespace, then one or more newlines; no block holds such a
    separator (a newline left inside a block is not followed by a blank
    line); and the result is, in the same order, the blocks of at least
    three whitespace-delimited tokens, each with its whitespace runs
    collapsed to single spaces.  In particular a text without such a
    separator, whatever single newlines it has, is one block. *)
Theorem detect_paragraphs_segmentation (text : pystr) :
  detect_paragraphs [] = [] /\
  (exists blocks seps,
     length blocks = S (length seps) /\
     strip text = interleave blocks seps /\
     Forall blank_line_sep seps /\
     Forall sep_free blocks /\
     detect_paragraphs text = map collapse (List.filter enough_tokens blocks)) /\
  (sep_free (strip text) ->
     detect_paragraphs text = map collapse (List.filter enough_tokens [strip text])).
Proof.
  destruct (split_decomposition (strip text) None)
    as (seps & Hlen & Hcat & Hseps & Hfree).
  assert (detect_paragraphs text =
          map collapse (List.filter enough_tokens (Re.split paragraph_sep (strip text))))
    as Hdet by (by rewrite detect_paragraphs_eq, clean_paragraphs_spec).
  split; [done|]. split.
  - exists (Re.split paragraph_sep (strip text)), seps. by repeat split.
  - intros Hone. rewrite Hdet. unfold Re.split in *.
    destruct (split_from paragraph_sep None (strip text) 0) as [|b [|b' bs]];
      [done| |].
    + destruct seps as [|sep seps]; [|done]. simpl in Hcat. by rewrite Hcat.
    + destruct seps as [|sep seps]; [done|]. exfalso.
      apply Forall_cons in Hseps as [Hsep _].
      apply (Hone b sep (interleave (b' :: bs) seps)); [|done].
      exact Hcat.
Qed.

(** C7: joining the paragraphs of [text] with a blank line, as
    [extract_body_text] does, and segmenting again gives the same
    paragraphs. *)
Theorem detect_paragraphs_round_trip (text : pystr) :
  detect_paragraphs (extract_body_text (detect_paragraphs text)) =
  detect_paragraphs text.
Proof.
  pose proof (detect_paragraphs_clean text) as Hclean.
  destruct (detect_paragraphs text) as [|p ps]; [done|].
  rewrite detect_paragraphs_eq. unfold extract_body_text.
  rewrite body_trimmed by done. unfold Re.split.
  rewrite split_body by done. by apply clean_paragraphs_clean.
Qed.

(** The cases of the contract: a blank line splits, a single newline
    does not, a block of two words is dropped and one of three is kept. *)
Example detect_two_newlines :
  detect_paragraphs (lit "one two three" ++ [10; 10]%N ++ lit "four five six")
  = [lit "one two three"; lit "four five six"].
Proof. vm_compute. reflexivity. Qed.

Example detect_one_newline :
  detect_paragraphs (lit "one two three" ++ [10]%N ++ lit "four five six")
  = [lit "one two three four five six"].
Proof. vm_compute. reflexivity. Qed.

Example detect_short_block :
  detect_paragraphs (lit "Page 7" ++ [10; 32; 10]%N ++ lit "  one   two" ++ [9]%N
                       ++ lit "three " ++ [10; 10; 10]%N ++ lit "a b")
  = [lit "one two three"].
Proof. vm_compute. reflexivity. Qed.

End SegmentationFacts.

(** ** ASCII text does not see the Unicode tables beyond Basic Latin *)

Section AsciiFacts.
Context (U1 U2 : Unicode).
Import Re AsciiSpec.

Lemma is_word_ascii c : is_ascii c -> @is_word U1 c = @is_word U2 c.
Proof. intros H. unfold is_word. by rewrite !isalnum_ascii. Qed.

Lemma at_boundary_ascii prev s :
  ascii_prev prev -> Forall is_ascii s ->
  @at_boundary U1 prev s = @at_boundary U2 prev s.
Proof.
  intros Hp Hs. unfold at_boundary. f_equal.
  - destruct prev as [c|]; [|done]. simpl. apply is_word_ascii. by apply Hp.
  - destruct s as [|c s]; [done|]. simpl. apply is_word_ascii. by inversion Hs.
Qed.

Lemma run_ascii c1 c2 hi s :
  (forall c, is_ascii c -> c1 c = c2 c) -> Forall is_ascii s ->
  run c1 hi s = run c2 hi s.
Proof.
  intros Hc Hs. revert hi. induction Hs as [|c s Hca _ IH]; intros hi; [done|].
  simpl. rewrite (Hc c Hca). destruct (c2 c); [|done].
  destruct hi as [[|h]|]; [done| |]; by rewrite IH.
Qed.

Lemma backtrack_ext {A} (f g : nat -> option A) lo n :
  (forall k, k <= n -> f k = g k) -> backtrack f lo n = backtrack g lo n.
Proof.
  induction n as [|n IH]; intros H; simpl.
  - by rewrite (H 0).
  - rewrite (H (S n)) by lia. rewrite IH; [done|]. intros k Hk. apply H. lia.
Qed.

Lemma last_char_ascii prev l :
  ascii_prev prev -> Forall is_ascii l -> ascii_prev (last_char prev l).
Proof.
  intros Hp Hl c. unfold last_char. destruct (last l) as [b|] eqn:E.
  - intros [= <-]. rewrite Forall_forall in Hl. apply Hl.
    apply last_Some in E as [l' ->]. set_solver.
  - apply Hp.
Qed.

Lemma match_here_ascii p1 p2 :
  Forall2 node_agree p1 p2 -> forall prev s,
  ascii_prev prev -> Forall is_ascii s ->
  @match_here U1 p1 prev s = @match_here U2 p2 prev s.
Proof.
  induction 1 as [|n1 n2 p1 p2 Hn _ IH]; intros prev s Hp Hs; [done|].
  destruct n1 as [c1 lo1 hi1|], n2 as [c2 lo2 hi2|]; try done; simpl.
  - destruct Hn as (<- & <- & Hc). rewrite (run_ascii c1 c2) by done.
    apply backtrack_ext. intros k _. f_equal. apply IH.
    + apply last_char_ascii; [done|]. by apply Forall_take.
    + by apply Forall_drop.
  - rewrite at_boundary_ascii by done. destruct (at_boundary prev s); [|done].
    by apply IH.
Qed.

Lemma search_from_ascii p1 p2 :
  Forall2 node_agree p1 p2 -> forall s prev,
  ascii_prev prev -> Forall is_ascii s ->
  @search_from U1 p1 prev s = @search_from U2 p2 prev s.
Proof.
  intros Hp. induction s as [|c s IH]; intros prev Hprev Hs; simpl;
    rewrite (match_here_ascii p1 p2 Hp) by done; [done|].
  destruct (match_here p2 prev (c :: s)); [done|].
  apply Forall_cons in Hs as [Hc Hs]. apply IH; [|done]. by intros ? [= <-].
Qed.

Lemma findall_from_ascii p1 p2 :
  Forall2 node_agree p1 p2 -> forall s prev skip,
  ascii_prev prev -> Forall is_ascii s ->
  @findall_from U1 p1 prev s skip = @findall_from U2 p2 prev s skip.
Proof.
  intros Hp. induction s as [|c s IH]; intros prev skip Hprev Hs; [done|].
  pose proof Hs as Hs'. apply Forall_cons in Hs' as [Hc Hs'].
  assert (ascii_prev (Some c)) as Hpc by (by intros ? [= <-]).
  simpl. destruct skip as [|k]; [|by apply IH].
  rewrite (match_here_ascii p1 p2 Hp) by done.
  destruct (match_here p2 prev (c :: s)) as [[|k]|]; [by apply IH| |by apply IH].
  f_equal. by apply IH.
Qed.

End AsciiFacts.

Section AsciiChecks.
Import AsciiSpec.

Lemma is_ascii_check s :
  forallb (fun c => (c <? 128)%N) s = true -> Forall is_ascii s.
Proof.
  intros H. apply Forall_forall. intros c Hc.
  rewrite forallb_forall in H. apply N.ltb_lt, H. by apply list_elem_of_In.
Qed.

Lemma node_agree_refl p : Forall2 node_agree p p.
Proof.
  induction p as [|[cls lo hi|] p IH]; constructor; simpl; auto.
Qed.

Lemma map_ascii_lower_ascii s : Forall is_ascii s -> Forall is_ascii (map ascii_lower s).
Proof.
  intros H. apply Forall_fmap. eapply Forall_impl; [exact H|].
  intros c Hc. unfold ascii_lower, is_ascii in *. simpl.
  destruct ((65 <=? c)%N && (c <=? 90)%N) eqn:E; [|done].
  apply andb_true_iff in E as [_ E]. apply N.leb_le in E. lia.
Qed.

End AsciiChecks.

(** ** Counting and ranking *)

Section RankingFacts.
Import TextAnalyzer RankSpec.
#[local] Set Warnings "-clear-no-such-hyp".

Lemma occurrences_snoc w x toks :
  occurrences w (toks ++ [x]) =
  (occurrences w toks + if decide (x = w) then 1 else 0)%Z.
Proof.
  unfold occurrences. rewrite List.filter_app, length_app. simpl.
  destruct (decide (x = w)) as [->|Hne].
  - rewrite bool_decide_eq_true_2 by done. simpl. lia.
  - rewrite bool_decide_eq_false_2 by done. simpl. lia.
Qed.

Lemma occurrences_notin w toks : w ∉ toks -> occurrences w toks = 0%Z.
Proof.
  unfold occurrences. induction toks as [|x l IH]; intros H; [done|].
  simpl. rewrite bool_decide_eq_false_2 by set_solver. apply IH. set_solver.
Qed.

Lemma occurrences_in w toks : w ∈ toks -> (1 <= occurrences w toks)%Z.
Proof.
  unfold occurrences. induction toks as [|x l IH]; intros H; [set_solver|].
  simpl. destruct (decide (x = w)) as [->|Hne].
  - rewrite bool_decide_eq_true_2 by done. simpl. lia.
  - rewrite bool_decide_eq_false_2 by done. apply IH. set_solver.
Qed.

Lemma index_of_lt w toks : w ∈ toks -> index_of w toks < length toks.
Proof.
  induction toks as [|x l IH]; intros H; [set_solver|]. simpl.
  destruct (decide (x = w)); [lia|]. assert (w ∈ l) by set_solver.
  specialize (IH H0). lia.
Qed.

Lemma index_of_app_l w toks l : w ∈ toks -> index_of w (toks ++ l) = index_of w toks.
Proof.
  induction toks as [|x t IH]; intros H; [set_solver|]. simpl.
  destruct (decide (x = w)); [done|]. f_equal. apply IH. set_solver.
Qed.

Lemma index_of_app_r w toks l :
  w ∉ toks -> index_of w (toks ++ l) = length toks + index_of w l.
Proof.
  induction toks as [|x t IH]; intros H; [done|]. simpl.
  destruct (decide (x = w)); [set_solver|]. f_equal. apply IH. set_solver.
Qed.

(** [counter_add] either bumps the one entry of [w] or appends a fresh
    entry at the end. *)
Lemma counter_add_spec w c :
  (exists k c1 c2, c = c1 ++ (w, k) :: c2 /\ (w ∉ c1.*1) /\
                   counter_add w c = c1 ++ (w, (k + 1)%Z) :: c2) \/
  ((w ∉ c.*1) /\ counter_add w c = c ++ [(w, 1%Z)]).
Proof.
  induction c as [|[w' n] c IH]; simpl.
  - right. split; [set_solver|done].
  - destruct (decide (w = w')) as [<-|Hne].
    + left. exists n, [], c. split; [done|]. split; [set_solver|done].
    + destruct IH as [(k & c1 & c2 & -> & Hn & ->)|[Hn ->]].
      * left. exists k, ((w', n) :: c1), c2. split; [done|].
        split; [simpl; set_solver|done].
      * right. split; [set_solver|done].
Qed.

Lemma StronglySorted_app_inv {A} (R : A -> A -> Prop) l1 l2 :
  StronglySorted R (l1 ++ l2) ->
  StronglySorted R l1 /\ StronglySorted R l2 /\
  (forall x y, x ∈ l1 -> y ∈ l2 -> R x y).
Proof.
  induction l1 as [|a l1 IH]; simpl; intros H.
  - split; [constructor|]. split; [done|]. set_solver.
  - apply StronglySorted_inv in H as [H Ha]. destruct (IH H) as (H1 & H2 & H12).
    split; [|split; [done|]].
    + constructor; [done|]. rewrite List.Forall_forall in *. intros x Hx.
      apply Ha. apply in_or_app. by left.
    + intros x y Hx Hy. apply elem_of_cons in Hx as [->|Hx]; [|by apply H12].
      rewrite List.Forall_forall in Ha. apply Ha. apply in_or_app. right.
      by apply list_elem_of_In.
Qed.

Lemma StronglySorted_app {A} (R : A -> A -> Prop) l1 l2 :
  StronglySorted R l1 -> StronglySorted R l2 ->
  (forall x y, x ∈ l1 -> y ∈ l2 -> R x y) ->
  StronglySorted R (l1 ++ l2).
Proof.
  induction l1 as [|a l1 IH]; simpl; intros H1 H2 H12; [done|].
  apply StronglySorted_inv in H1 as [H1 Ha]. constructor.
  - apply IH; [done|done|]. intros x y Hx Hy. apply H12; [set_solver|done].
  - rewrite List.Forall_forall in *. intros x Hx. apply in_app_or in Hx as [Hx|Hx].
    + by apply Ha.
    + apply H12; [set_solver|]. by apply list_elem_of_In.
Qed.

Lemma StronglySorted_impl_in {A} (R R' : A -> A -> Prop) l :
  (forall x y, x ∈ l -> y ∈ l -> R x y -> R' x y) ->
  StronglySorted R l -> StronglySorted R' l.
Proof.
  induction l as [|a l IH]; intros HR H; [constructor|].
  apply StronglySorted_inv in H as [H Ha]. constructor.
  - apply IH; [|done]. intros x y Hx Hy. apply HR; set_solver.
  - rewrite List.Forall_forall in *. intros x Hx. apply HR; [set_solver| |by apply Ha].
    apply elem_of_cons. right. by apply list_elem_of_In.
Qed.

Lemma counter_inv_nil : counter_inv [] [].
Proof.
  split; [constructor|]. split; [set_solver|]. split; [set_solver|constructor].
Qed.

Lemma counter_inv_step toks c w :
  counter_inv toks c -> counter_inv (toks ++ [w]) (counter_add w c).
Proof.
  intros (Hnd & Hdom & Hcnt & Hsort).
  assert (forall x y, x ∈ c -> y ∈ c ->
            seen_before toks x y -> seen_before (toks ++ [w]) x y) as Hkeep.
  { intros [x kx] [y ky] Hx Hy. unfold seen_before. simpl.
    rewrite !index_of_app_l; [done| |].
    - apply Hdom. apply list_elem_of_fmap. by exists (y, ky).
    - apply Hdom. apply list_elem_of_fmap. by exists (x, kx). }
  destruct (counter_add_spec w c) as [(k & c1 & c2 & E & Hn1 & ->)|[Hn ->]].
  - subst c. unfold counter_inv.
    rewrite !fmap_app, !fmap_cons in *. simpl in *.
    split; [done|]. split; [|split].
    + intros w'. rewrite Hdom. set_solver.
    + intros w' k' Hin. rewrite occurrences_snoc.
      apply elem_of_app in Hin as [Hin|Hin].
      * rewrite <- (Hcnt w' k') by set_solver.
        destruct (decide (w = w')) as [<-|]; [|lia].
        exfalso. apply Hn1. apply list_elem_of_fmap. by exists (w, k').
      * apply elem_of_cons in Hin as [[= -> ->]|Hin].
        -- rewrite decide_True by done. rewrite <- (Hcnt w k); [done|set_solver].
        -- rewrite <- (Hcnt w' k') by set_solver.
           destruct (decide (w = w')) as [<-|]; [|lia].
           exfalso. apply NoDup_app in Hnd as (_ & _ & Hnd).
           apply NoDup_cons in Hnd as [Hnd _]. apply Hnd.
           apply list_elem_of_fmap. by exists (w, k').
    + apply StronglySorted_app_inv in Hsort as (S1 & S2 & S12).
      apply StronglySorted_inv in S2 as [S2 Sw].
      apply StronglySorted_app.
      * eapply StronglySorted_impl_in; [|exact S1].
        intros x y Hx Hy. apply Hkeep; set_solver.
      * constructor.
        -- eapply StronglySorted_impl_in; [|exact S2].
           intros x y Hx Hy. apply Hkeep; set_solver.
        -- rewrite List.Forall_forall in *. intros y Hy.
           specialize (Sw y Hy). apply list_elem_of_In in Hy.
           apply (Hkeep (w, k) y) in Sw; [done|set_solver|set_solver].
      * intros x y Hx Hy. apply elem_of_cons in Hy as [->|Hy].
        -- apply (Hkeep x (w, k)); [set_solver|set_solver|]. apply S12; set_solver.
        -- apply Hkeep; [set_solver|set_solver|]. apply S12; set_solver.
  - assert (w ∉ toks) as Hw by (by rewrite <- Hdom).
    unfold counter_inv. rewrite fmap_app. simpl. split; [|split; [|split]].
    + apply NoDup_app. split; [done|]. split; [|apply NoDup_singleton].
      intros x Hx. set_solver.
    + intros w'. rewrite elem_of_app, Hdom. set_solver.
    + intros w' k' Hin. rewrite occurrences_snoc.
      apply elem_of_app in Hin as [Hin|Hin].
      * rewrite <- (Hcnt w' k') by done.
        destruct (decide (w = w')) as [<-|]; [|lia].
        exfalso. apply Hn. apply list_elem_of_fmap. by exists (w, k').
      * apply list_elem_of_singleton in Hin as [= -> ->].
        rewrite decide_True by done. by rewrite occurrences_notin.
    + apply StronglySorted_app.
      * eapply StronglySorted_impl_in; [|exact Hsort]. done.
      * repeat constructor.
      * intros [x kx] y Hx Hy. apply list_elem_of_singleton in Hy as ->.
        unfold seen_before. simpl.
        assert (x ∈ toks) as Hxin.
        { apply Hdom. apply list_elem_of_fmap. by exists (x, kx). }
        rewrite index_of_app_l by done. rewrite index_of_app_r by done.
        pose proof (index_of_lt x toks Hxin). lia.
Qed.

Lemma Counter_inv toks : counter_inv toks (Counter toks).
Proof.
  unfold Counter. induction toks as [|w toks IH] using rev_ind.
  - apply counter_inv_nil.
  - rewrite foldl_snoc. by apply counter_inv_step.
Qed.

Lemma insert_desc_perm x l : insert_desc x l ≡ₚ x :: l.
Proof.
  induction l as [|y l IH]; simpl; [done|].
  destruct (x.2 <? y.2)%Z; [|done]. rewrite IH. apply Permutation_swap.
Qed.

Lemma sorted_desc_perm l : sorted_desc l ≡ₚ l.
Proof.
  induction l as [|x l IH]; simpl; [done|].
  rewrite insert_desc_perm. by rewrite IH.
Qed.

Lemma insert_desc_sorted toks x l :
  StronglySorted (ranks_before toks) l ->
  (forall y, y ∈ l -> seen_before toks x y) ->
  StronglySorted (ranks_before toks) (insert_desc x l).
Proof.
  induction l as [|y l IH]; simpl; intros Hs Hx.
  - repeat constructor.
  - apply StronglySorted_inv in Hs as [Hs Hy].
    destruct (Z.ltb_spec x.2 y.2) as [Hlt|Hge].
    + constructor.
      * apply IH; [done|]. intros z Hz. apply Hx. set_solver.
      * rewrite List.Forall_forall in *. intros z Hz.
        apply list_elem_of_In in Hz. rewrite insert_desc_perm in Hz.
        apply elem_of_cons in Hz as [->|Hz]; [by left|].
        apply Hy. by apply list_elem_of_In.
    + constructor; [by constructor|].
      rewrite List.Forall_forall in *. intros z Hz. apply list_elem_of_In in Hz.
      assert (seen_before toks x z) as Hxz by (by apply Hx).
      assert (z.2 <= y.2)%Z as Hzy.
      { apply elem_of_cons in Hz as [->|Hz]; [lia|].
        apply list_elem_of_In in Hz. destruct (Hy z Hz) as [?|[? _]]; lia. }
      unfold ranks_before. destruct (decide (x.2 = z.2)); [right; done|left; lia].
Qed.

Lemma sorted_desc_sorted toks c :
  StronglySorted (seen_before toks) c ->
  StronglySorted (ranks_before toks) (sorted_desc c).
Proof.
  induction c as [|x c IH]; simpl; intros Hs; [constructor|].
  apply StronglySorted_inv in Hs as [Hs Hx].
  apply insert_desc_sorted; [by apply IH|].
  intros y Hy. rewrite sorted_desc_perm in Hy.
  rewrite List.Forall_forall in Hx. apply Hx. by apply list_elem_of_In.
Qed.

End RankingFacts.

Section FrequencyFacts.
Context {U : Unicode}.
Variable self : TextAnalyzer.TextAnalyzer.
Import AsciiSpec TextAnalyzer RankSpec.

(** On ASCII text the tokens do not depend on the Unicode tables beyond
    Basic Latin. *)
Lemma tokenize_words_ascii text :
  Forall is_ascii text ->
  tokenize_words text =
    @Re.findall Latin1.db word_pattern (map ascii_lower text).
Proof.
  intros H. destruct text as [|c text]; [done|].
  unfold tokenize_words. rewrite lower_ascii by done.
  apply findall_from_ascii.
  - apply node_agree_refl.
  - done.
  - by apply map_ascii_lower_ascii.
Qed.

Lemma calculate_word_frequency_eq text top_n remove_stop_words :
  calculate_word_frequency self text top_n remove_stop_words =
    most_common (default 10%Z top_n)
      (Counter (counted_tokens self text remove_stop_words)).
Proof.
  unfold calculate_word_frequency, counted_tokens.
  destruct text; [|done]. unfold most_common.
  destruct (default true remove_stop_words); simpl;
    by destruct (Z.to_nat (default 10%Z top_n)).
Qed.

(** C6: the result is the first [top_n] entries (10 when the argument
    is left out) of a ranking of the counted tokens: each distinct token
    once, with its number of occurrences, ordered by descending count
    and, among equal counts, by first appearance in the token stream.
    On "Data data DATA insight insight" without stopword removal it is
    [("data", 3); ("insight", 2)]. *)
Theorem calculate_word_frequency_ranking text top_n remove_stop_words :
  let toks := counted_tokens self text remove_stop_words in
  (exists ranking,
     calculate_word_frequency self text top_n remove_stop_words =
       take (Z.to_nat (default 10%Z top_n)) ranking /\
     NoDup ranking.*1 /\
     (forall w, w ∈ ranking.*1 <-> w ∈ toks) /\
     (forall w k, (w, k) ∈ ranking -> k = occurrences w toks /\ (1 <= k)%Z) /\
     StronglySorted (ranks_before toks) ranking) /\
  calculate_word_frequency self (lit "Data data DATA insight insight")
    None (Some false) = [(lit "data", 3%Z); (lit "insight", 2%Z)].
Proof.
  intros toks. split.
  - exists (sorted_desc (Counter toks)).
    destruct (Counter_inv toks) as (Hnd & Hdom & Hcnt & Hsort).
    split; [apply calculate_word_frequency_eq|]. split; [|split; [|split]].
    + by rewrite sorted_desc_perm.
    + intros w. by rewrite sorted_desc_perm.
    + intros w k Hin. rewrite sorted_desc_perm in Hin.
      pose proof (Hcnt w k Hin) as ->. split; [done|].
      apply occurrences_in, Hdom. apply list_elem_of_fmap. by exists (w, occurrences w toks).
    + by apply sorted_desc_sorted.
  - rewrite calculate_word_frequency_eq. unfold counted_tokens. simpl default.
    cbv iota. rewrite tokenize_words_ascii by (by apply is_ascii_check).
    vm_compute. reflexivity.
Qed.

End FrequencyFacts.

(** ** Rounding to binary64 *)

Section RoundingFacts.
Local Open Scope Z_scope.

Lemma digits2_pos_size p : digits2_pos p = Pos.size p.
Proof. induction p; simpl; congruence. Qed.

Lemma digits2_log2 p : Zpos (digits2_pos p) = Z.log2 (Zpos p) + 1.
Proof.
  rewrite digits2_pos_size. destruct p; simpl; lia.
Qed.

Lemma Zdigits2_log2 m : 0 < m -> Zdigits2 m = Z.log2 m + 1.
Proof. destruct m; try lia. intros _. apply digits2_log2. Qed.

Lemma iter_pos_nat {A} (f : A -> A) n x :
  SpecFloat.iter_pos f n x = Nat.iter (Pos.to_nat n) f x.
Proof.
  revert x. induction n as [n IH|n IH|]; intros x.
  - change (Nat.iter (Pos.to_nat n) f (Nat.iter (Pos.to_nat n) f (f x)) =
            Nat.iter (Pos.to_nat n~1) f x) || simpl SpecFloat.iter_pos.
    rewrite !IH, Pos2Nat.inj_xI.
    replace (S (2 * Pos.to_nat n)) with (Pos.to_nat n + S (Pos.to_nat n))%nat by lia.
    by rewrite Nat.iter_add, Nat.iter_succ_r.
  - simpl SpecFloat.iter_pos. rewrite !IH, Pos2Nat.inj_xO.
    replace (2 * Pos.to_nat n)%nat with (Pos.to_nat n + Pos.to_nat n)%nat by lia.
    by rewrite Nat.iter_add.
  - done.
Qed.

Lemma shr_1_m r : 0 <= shr_m r -> shr_m (shr_1 r) = Z.div2 (shr_m r).
Proof.
  destruct r as [m rb sb]. simpl. destruct m as [|[p|p|]|p]; simpl; try done; lia.
Qed.

Lemma shr_iter_m k r :
  0 <= shr_m r -> shr_m (Nat.iter k shr_1 r) = Z.shiftr (shr_m r) (Z.of_nat k).
Proof.
  intros Hr. induction k as [|k IH].
  - simpl. by rewrite Z.shiftr_0_r.
  - rewrite Nat2Z.inj_succ. simpl Nat.iter. rewrite shr_1_m.
    + rewrite IH. rewrite Z.div2_spec. rewrite Z.shiftr_shiftr by lia. f_equal; lia.
    + rewrite IH. apply Z.shiftr_nonneg. done.
Qed.

Lemma round_nearest_even_cases m l :
  round_nearest_even m l = m \/ round_nearest_even m l = m + 1.
Proof.
  destruct l as [|[]]; simpl; auto. destruct (Z.even m); auto.
Qed.

Lemma shr_record_of_loc_m m l : shr_m (shr_record_of_loc m l) = m.
Proof. by destruct l as [|[]]. Qed.

(** [shr_fexp] on a positive mantissa in the normal range: nothing
    happens at 53 digits or fewer, longer mantissas are cut to 53. *)
Lemma shr_fexp_normal m e l :
  0 < m -> emin <= Zdigits2 m + e - prec ->
  let d := Zdigits2 m in
  if d <=? prec
  then shr_fexp prec emax m e l = (shr_record_of_loc m l, e)
  else exists r, shr_fexp prec emax m e l = (r, d + e - prec) /\
                 shr_m r = Z.shiftr m (d - prec).
Proof.
  intros Hm Hn d. unfold shr_fexp, fexp. fold d.
  rewrite Z.max_l by (fold d in Hn; lia).
  replace (d + e - prec - e) with (d - prec) by lia.
  destruct (Z.leb_spec d prec) as [Hd|Hd].
  - unfold shr. destruct (d - prec) eqn:E; try done. lia.
  - unfold shr. destruct (d - prec) as [|n|n] eqn:E; try lia.
    eexists. split; [f_equal; lia|].
    rewrite iter_pos_nat, shr_iter_m by (rewrite shr_record_of_loc_m; lia).
    rewrite shr_record_of_loc_m. f_equal. lia.
Qed.

Lemma log2_shiftr_digits m n :
  0 < m -> 0 <= n -> n <= Z.log2 m ->
  0 < Z.shiftr m n /\ Z.log2 (Z.shiftr m n) = Z.log2 m - n.
Proof.
  intros Hm Hn Hle.
  assert (Z.log2 (Z.shiftr m n) = Z.log2 m - n) as E.
  { rewrite Z.log2_shiftr by done. lia. }
  split; [|done].
  rewrite Z.shiftr_div_pow2 by done.
  apply Z.div_str_pos. split; [apply Z.pow_pos_nonneg; lia|].
  transitivity (2 ^ Z.log2 m); [apply Z.pow_le_mono_r; lia|].
  apply Z.log2_spec. done.
Qed.

(** The outcome of rounding a positive mantissa of at least 53 digits
    in the normal range: 53 digits, and an exponent that is the
    truncation's or one more. *)
Lemma binary_round_aux_normal s m e :
  let d := Zdigits2 (Zpos m) in
  prec <= d -> emin <= d + e - prec ->
  exists m' e',
    binary_round_aux prec emax s (Zpos m) e loc_Exact =
      (if e' <=? emax - prec then S754_finite s m' e' else S754_infinity s) /\
    Zpos (digits2_pos m') = prec /\
    d + e - prec <= e' <= d + e - prec + 1.
Proof.
  intros d Hd Hn. unfold binary_round_aux.
  pose proof (shr_fexp_normal (Zpos m) e loc_Exact eq_refl Hn) as H1.
  fold d in H1. cbv zeta in H1.
  assert (exists r1, shr_fexp prec emax (Zpos m) e loc_Exact = (r1, d + e - prec) /\
            0 < shr_m r1 /\ Zdigits2 (shr_m r1) = prec) as (r1 & -> & Hr1 & Hd1).
  { destruct (Z.leb_spec d prec) as [Hle|Hgt].
    - assert (d = prec) as Ed by lia. rewrite H1. eexists. split; [f_equal; lia|].
      simpl. split; [done|]. exact Ed.
    - destruct H1 as (r & -> & Hr). exists r. split; [done|].
      unfold d in *. rewrite Zdigits2_log2 in * by done.
      destruct (log2_shiftr_digits (Zpos m) (Z.log2 (Zpos m) + 1 - prec))
        as [Hpos Hlog]; [done|lia|unfold prec; lia|].
      rewrite Hr. split; [done|]. rewrite Zdigits2_log2 by done. lia. }
  set (m1 := shr_m r1) in *. set (E := d + e - prec) in *.
  set (m2 := round_nearest_even m1 (loc_of_shr_record r1)).
  assert (m2 = m1 \/ m2 = m1 + 1) as Hm2 by apply round_nearest_even_cases.
  assert (0 < m2) as Hm2pos by lia.
  rewrite Zdigits2_log2 in Hd1 by done.
  assert (2 ^ (prec - 1) <= m1 < 2 ^ prec) as Hm1.
  { pose proof (Z.log2_spec m1 Hr1) as Hs.
    replace (Z.log2 m1) with (prec - 1) in Hs by lia.
    replace (Z.succ (prec - 1)) with prec in Hs by lia. done. }
  destruct (decide (m2 = 2 ^ prec)) as [Etop|Hntop].
  - (* the rounding carried into a 54th digit *)
    pose proof (shr_fexp_normal m2 E loc_Exact Hm2pos) as H2.
    assert (Zdigits2 m2 = prec + 1) as Hd2.
    { rewrite Zdigits2_log2 by done. rewrite Etop. rewrite Z.log2_pow2; unfold prec; lia. }
    rewrite Hd2 in H2. specialize (H2 ltac:(lia)). cbv zeta in H2.
    destruct (Z.leb_spec (prec + 1) prec); [lia|].
    destruct H2 as (r2 & -> & Hr2).
    replace (prec + 1 - prec) with 1 in Hr2 by lia.
    rewrite Etop in Hr2. change (Z.shiftr (2 ^ prec) 1) with 4503599627370496 in Hr2.
    rewrite Hr2. exists 4503599627370496%positive, (E + 1).
    replace (prec + 1 + E - prec) with (E + 1) by lia.
    split; [done|]. split; [done|lia].
  - assert (2 ^ (prec - 1) <= m2 < 2 ^ prec) as Hm2r by lia.
    pose proof (shr_fexp_normal m2 E loc_Exact Hm2pos) as H2.
    assert (Zdigits2 m2 = prec) as Hd2.
    { rewrite Zdigits2_log2 by done.
      assert (Z.log2 m2 = prec - 1); [|lia].
      apply Z.log2_unique; [unfold prec; lia|].
      replace (prec - 1 + 1) with prec by lia. done. }
    rewrite Hd2 in H2. specialize (H2 ltac:(lia)). cbv zeta in H2.
    rewrite Z.leb_refl in H2. rewrite H2. simpl shr_m.
    destruct m2 as [|p2|]; try lia.
    exists p2, E. replace (prec + E - prec) with E by lia.
    split; [done|]. split; [exact Hd2|lia].
Qed.

End RoundingFacts.

Section FloatFacts.
Local Open Scope Z_scope.

Lemma digits2_pos_shift p n :
  Zpos (digits2_pos (Pos.iter xO p n)) = Zpos (digits2_pos p) + Zpos n.
Proof.
  induction n as [|n IH] using Pos.peano_ind.
  - simpl. lia.
  - rewrite Pos.iter_succ. simpl digits2_pos. rewrite Pos2Z.inj_succ, IH. lia.
Qed.

(** The conversion of a positive [int]: a 53-digit mantissa and an
    exponent fixed by the size of the integer, unless it overflows. *)
Lemma binary_normalize_pos z :
  0 < z ->
  exists m e,
    binary_normalize prec emax z 0 false =
      (if e <=? emax - prec then S754_finite false m e else S754_infinity false) /\
    Zpos (digits2_pos m) = prec /\
    Z.log2 z - 52 <= e <= Z.log2 z - 51.
Proof.
  destruct z as [|p|p]; try lia. intros _.
  unfold binary_normalize, binary_round, shl_align, fexp.
  pose proof (digits2_log2 p) as Hd. pose proof (Z.log2_nonneg (Zpos p)) as Hl.
  rewrite Z.max_l by (unfold SpecFloat.emin, emax, prec in *; lia).
  destruct (Zpos (digits2_pos p) + 0 - prec - 0) as [|n|n] eqn:E.
  - destruct (binary_round_aux_normal false p 0) as (m & e & -> & Hm & He);
      [simpl Zdigits2; unfold prec in *; lia
      |simpl Zdigits2; unfold SpecFloat.emin, emax, prec in *; lia|].
    exists m, e. split; [done|]. split; [done|].
    simpl Zdigits2 in He. unfold prec in *. lia.
  - destruct (binary_round_aux_normal false p 0) as (m & e & -> & Hm & He);
      [simpl Zdigits2; unfold prec in *; lia
      |simpl Zdigits2; unfold SpecFloat.emin, emax, prec in *; lia|].
    exists m, e. split; [done|]. split; [done|].
    simpl Zdigits2 in He. unfold prec in *. lia.
  - pose proof (digits2_pos_shift p n) as Hs.
    destruct (binary_round_aux_normal false (Pos.iter xO p n)
                (Zpos (digits2_pos p) + 0 - prec)) as (m & e & -> & Hm & He);
      [simpl Zdigits2; unfold prec in *; lia
      |simpl Zdigits2; unfold SpecFloat.emin, emax, prec in *; lia|].
    exists m, e. split; [done|]. split; [done|].
    simpl Zdigits2 in He. unfold prec in *. lia.
Qed.

Lemma of_int_zero : F.of_int 0 = Ok F.zero.
Proof. done. Qed.

(** [float(n)] succeeds below 2^1023. *)
Lemma of_int_pos z :
  0 < z < 2 ^ 1023 ->
  exists m e, F.of_int z = Ok (S754_finite false m e) /\
              Zpos (digits2_pos m) = prec /\
              Z.log2 z - 52 <= e <= Z.log2 z - 51.
Proof.
  intros [Hz Hlt]. destruct (binary_normalize_pos z Hz) as (m & e & E & Hm & He).
  assert (Z.log2 z < 1023) as Hl by (apply Z.log2_lt_pow2; lia).
  exists m, e. split; [|done]. unfold F.of_int. rewrite E.
  destruct (Z.leb_spec e (emax - prec)); [done|]. unfold emax, prec in *. lia.
Qed.

Lemma of_int_inv z x :
  0 < z -> F.of_int z = Ok x ->
  exists m e, x = S754_finite false m e /\
              Zpos (digits2_pos m) = prec /\
              Z.log2 z - 52 <= e <= Z.log2 z - 51.
Proof.
  intros Hz. destruct (binary_normalize_pos z Hz) as (m & e & E & Hm & He).
  unfold F.of_int. rewrite E.
  destruct (e <=? emax - prec); [|done]. intros [= <-]. eauto.
Qed.

(** The product of two positive normal floats: 53 digits again, the
    exponents add up. *)
Lemma mul_pos mx ex mw ew :
  Zpos (digits2_pos mx) = prec -> Zpos (digits2_pos mw) = prec ->
  -1000 <= ex + ew ->
  exists m e,
    F.mul (S754_finite false mx ex) (S754_finite false mw ew) =
      (if e <=? emax - prec then S754_finite false m e else S754_infinity false) /\
    Zpos (digits2_pos m) = prec /\
    ex + ew + 52 <= e <= ex + ew + 54.
Proof.
  intros Hx Hw Hn. unfold F.mul, SFmul. simpl xorb.
  rewrite digits2_log2 in Hx, Hw.
  pose proof (Z.log2_mul_below (Zpos mx) (Zpos mw) eq_refl eq_refl) as Hb.
  pose proof (Z.log2_mul_above (Zpos mx) (Zpos mw)) as Ha.
  specialize (Ha ltac:(lia) ltac:(lia)).
  rewrite <- Pos2Z.inj_mul in Ha, Hb.
  pose proof (digits2_log2 (mx * mw)) as Hd.
  destruct (binary_round_aux_normal false (mx * mw) (ex + ew)) as (m & e & -> & Hm & He);
    [simpl Zdigits2; unfold prec in *; lia
    |simpl Zdigits2; unfold SpecFloat.emin, emax, prec in *; lia|].
  exists m, e. split; [done|]. split; [done|].
  simpl Zdigits2 in He. unfold prec in *. lia.
Qed.

(** Beyond [2^k], the weighted count exceeds the cap. *)
Lemma weighted_exceeds_cap z x mw ew mc ec k :
  Zpos (digits2_pos mw) = prec -> -900 <= ew ->
  0 <= k -> ec < k + ew ->
  2 ^ k <= z -> F.of_int z = Ok x ->
  F.ltb (S754_finite false mc ec) (F.mul x (S754_finite false mw ew)) = true.
Proof.
  intros Hw Hew Hk Hec Hz Hx.
  assert (0 < z) as Hzpos by (pose proof (Z.pow_pos_nonneg 2 k); lia).
  destruct (of_int_inv z x Hzpos Hx) as (m & e & -> & Hm & He).
  assert (k <= Z.log2 z) as Hlog by (by apply Z.log2_le_pow2).
  destruct (mul_pos m e mw ew Hm Hw) as (m' & e' & -> & _ & He'); [lia|].
  unfold F.ltb, SFltb. destruct (e' <=? emax - prec); simpl; [|done].
  destruct (Z.compare_spec ec e'); first [lia|done].
Qed.

End FloatFacts.

(** The constants of [F] are the doubles that Python reads from the
    decimal literals of the source. *)
#[local] Set Warnings "-inexact-float".
Lemma float_literals :
  Prim2SF 0.015%float = F.c0_015 /\ Prim2SF 0.02%float = F.c0_02 /\
  Prim2SF 0.04%float = F.c0_04 /\ Prim2SF 0.1%float = F.c0_1 /\
  Prim2SF 0.2%float = F.c0_2 /\ Prim2SF 0.3%float = F.c0_3 /\
  Prim2SF 1.0%float = F.c1_0 /\ Prim2SF 0.0%float = F.zero.
Proof. vm_compute. repeat split. Qed.
#[local] Set Warnings "inexact-float".

(** ** The confidence score *)

Section ScoreFacts.
Import ScoreSpec Classifier.
Local Open Scope Z_scope.

Lemma sf_eqb_eq x y : sf_eqb x y = true -> x = y.
Proof.
  destruct x as [a|a| |a m e], y as [b|b| |b m' e']; simpl; try done.
  - intros H. apply Bool.eqb_prop in H. by subst.
  - intros H. apply Bool.eqb_prop in H. by subst.
  - intros H. apply andb_true_iff in H as [H He].
    apply andb_true_iff in H as [Ha Hm].
    apply Bool.eqb_prop in Ha. apply Pos.eqb_eq in Hm. apply Z.eqb_eq in He.
    by subst.
Qed.

Lemma value_eq r x : sf_eqb (value r) x = true -> x <> S754_nan -> r = Ok x.
Proof.
  intros H Hx. apply sf_eqb_eq in H. destruct r as [y|e]; simpl in H; congruence.
Qed.

Lemma leb_value r1 r2 :
  F.leb (value r1) (value r2) = true ->
  exists x y, r1 = Ok x /\ r2 = Ok y /\ F.leb x y = true.
Proof.
  destruct r1 as [x|e1], r2 as [y|e2]; simpl; intros H; eauto.
  - by destruct x.
  - done.
  - done.
Qed.

Lemma forallb_seqZ (P : Z -> bool) lo len n :
  forallb P (seqZ lo len) = true -> lo <= n < lo + len -> P n = true.
Proof.
  intros H Hn. rewrite forallb_forall in H. apply H.
  apply list_elem_of_In. apply elem_of_seqZ. lia.
Qed.

(** Saturation of one contribution: checked up to [2^k], and by the
    size of the product beyond. *)
Lemma contribution_saturates mw ew mc ec lo k n :
  Zpos (digits2_pos mw) = prec -> -900 <= ew ->
  0 <= k -> ec < k + ew ->
  saturates_on (S754_finite false mw ew) (S754_finite false mc ec) lo (2 ^ k - lo) = true ->
  lo <= n < 2 ^ 1023 -> 0 < lo ->
  contribution n (S754_finite false mw ew) (S754_finite false mc ec) =
    Ok (S754_finite false mc ec).
Proof.
  intros Hw Hew Hk Hec Hchk Hn Hlo.
  destruct (Z.lt_ge_cases n (2 ^ k)) as [Hlt|Hge].
  - apply value_eq; [|done].
    apply (forallb_seqZ _ lo (2 ^ k - lo) n Hchk). lia.
  - unfold contribution.
    destruct (of_int_pos n) as (m & e & E & _); [lia|]. rewrite E.
    unfold mbind, res_bind, Py.bind. f_equal. unfold F.min.
    by rewrite (weighted_exceeds_cap n _ mw ew mc ec k Hw Hew Hk Hec Hge E).
Qed.

Lemma keywords_saturate n :
  20 <= n < 2 ^ 1023 -> contribution n F.c0_015 F.c0_3 = Ok F.c0_3.
Proof.
  intros Hn. apply (contribution_saturates _ _ _ _ 20 6);
    [done|lia|lia|lia|vm_compute; reflexivity|lia|lia].
Qed.

Lemma citations_saturate n :
  15 <= n < 2 ^ 1023 -> contribution n F.c0_02 F.c0_3 = Ok F.c0_3.
Proof.
  intros Hn. apply (contribution_saturates _ _ _ _ 15 5);
    [done|lia|lia|lia|vm_compute; reflexivity|lia|lia].
Qed.

Lemma sections_saturate n :
  5 <= n < 2 ^ 1023 -> contribution n F.c0_04 F.c0_2 = Ok F.c0_2.
Proof.
  intros Hn. apply (contribution_saturates _ _ _ _ 5 3);
    [done|lia|lia|lia|vm_compute; reflexivity|lia|lia].
Qed.

Lemma contribution_min w cap K n :
  (forall m, K <= m < 2 ^ 1023 -> contribution m w cap = Ok cap) ->
  0 < K < 2 ^ 1023 -> count_ok n ->
  contribution n w cap = contribution (Z.min n K) w cap.
Proof.
  intros Hsat HK Hn. destruct (Z.le_gt_cases n K) as [Hle|Hgt].
  - by rewrite Z.min_l.
  - rewrite Z.min_r by lia. rewrite !Hsat; [done|lia|unfold count_ok in Hn; lia].
Qed.

Lemma add_capped_contribution score n w cap :
  add_capped score n w cap = (x ← contribution n w cap; Ok (F.add score x)).
Proof. unfold add_capped, contribution. by destruct (F.of_int n). Qed.

Lemma score_saturated f :
  valid_features f ->
  calculate_confidence_score f = calculate_confidence_score (saturated f) /\
  weighted_sum f = weighted_sum (saturated f).
Proof.
  intros (Hk & Hc & Hs).
  assert (contribution (keyword_count f) F.c0_015 F.c0_3 =
          contribution (Z.min (keyword_count f) 20) F.c0_015 F.c0_3) as Ek
    by (apply contribution_min; [apply keywords_saturate|lia|done]).
  assert (contribution (citation_count f) F.c0_02 F.c0_3 =
          contribution (Z.min (citation_count f) 15) F.c0_02 F.c0_3) as Ec
    by (apply contribution_min; [apply citations_saturate|lia|done]).
  assert (contribution (section_count f) F.c0_04 F.c0_2 =
          contribution (Z.min (section_count f) 5) F.c0_04 F.c0_2) as Es
    by (apply contribution_min; [apply sections_saturate|lia|done]).
  split.
  - unfold calculate_confidence_score, saturated; simpl.
    rewrite !add_capped_contribution, Ek.
    destruct (contribution (Z.min (keyword_count f) 20) _ _) as [a|]; simpl; [|done].
    rewrite !add_capped_contribution, Ec.
    destruct (contribution (Z.min (citation_count f) 15) _ _) as [b|]; simpl; [|done].
    rewrite !add_capped_contribution. by rewrite Es.
  - unfold weighted_sum, saturated; simpl. by rewrite Ek, Ec, Es.
Qed.

Lemma elem_of_grid ks cs ss f :
  keyword_count f ∈ ks -> citation_count f ∈ cs -> section_count f ∈ ss ->
  f ∈ grid ks cs ss.
Proof.
  intros Hk Hc Hs. unfold grid.
  apply list_elem_of_bind. exists (keyword_count f). split; [|done].
  apply list_elem_of_bind. exists (citation_count f). split; [|done].
  apply list_elem_of_bind. exists (has_doi f). split; [|destruct (has_doi f); set_solver].
  apply list_elem_of_bind. exists (has_issn f). split; [|destruct (has_issn f); set_solver].
  apply list_elem_of_bind. exists (section_count f). split; [|done].
  destruct f. simpl. set_solver.
Qed.

Lemma saturated_in_grid f : valid_features f -> saturated f ∈ features_grid.
Proof.
  intros (Hk & Hc & Hs). unfold count_ok in *.
  apply elem_of_grid; simpl; apply elem_of_seqZ; lia.
Qed.

Lemma forallb_elem_of {A} (P : A -> bool) l x :
  forallb P l = true -> x ∈ l -> P x = true.
Proof.
  intros H Hx. rewrite forallb_forall in H. apply H. by apply list_elem_of_In.
Qed.

Lemma grid_scores_ok : forallb score_ok features_grid = true.
Proof. vm_compute. reflexivity. Qed.

Lemma ascending_lookup l i j x y :
  ascending l = true -> (i <= j)%nat ->
  l !! i = Some x -> l !! j = Some y -> F.leb x y = true.
Proof.
  revert i j. induction l as [|a l IH]; intros i j Hasc Hij Hi Hj; [done|].
  simpl in Hasc. apply andb_true_iff in Hasc as [Hasc Hrest].
  apply andb_true_iff in Hasc as [Haa Hal].
  destruct i as [|i].
  - injection Hi as <-. destruct j as [|j]; [by injection Hj as <-|].
    simpl in Hj. apply (forallb_elem_of _ l y Hal).
    by apply list_elem_of_lookup_2 in Hj.
  - destruct j as [|j]; [lia|]. simpl in Hi, Hj.
    apply (IH i j); [done|lia|done|done].
Qed.

Lemma scores_lookup (setter : Z -> FeatureSet) len n :
  0 <= n < len ->
  scores (map setter (seqZ 0 len)) !! Z.to_nat n =
    Some (value (calculate_confidence_score (setter n))).
Proof.
  intros Hn. unfold scores. rewrite !list_lookup_fmap.
  rewrite (lookup_seqZ_lt 0 len (Z.to_nat n)) by lia. simpl.
  rewrite Z2Nat.id by lia. done.
Qed.

Lemma ascending_scores (setter : Z -> FeatureSet) len n n' :
  ascending (scores (map setter (seqZ 0 len))) = true ->
  0 <= n <= n' -> n' < len ->
  scores_le (setter n) (setter n').
Proof.
  intros Hasc Hn Hlen. apply leb_value.
  apply (ascending_lookup _ (Z.to_nat n) (Z.to_nat n') _ _ Hasc); [lia| |];
    apply scores_lookup; lia.
Qed.

Lemma grid_ascending_in_keywords :
  forallb (fun f => ascending (scores (map (with_keywords f) (seqZ 0 21)))) (grid [0] (seqZ 0 16) (seqZ 0 6)) = true.
Proof. vm_compute. reflexivity. Qed.

Lemma grid_ascending_in_citations :
  forallb (fun f => ascending (scores (map (with_citations f) (seqZ 0 16)))) (grid (seqZ 0 21) [0] (seqZ 0 6)) = true.
Proof. vm_compute. reflexivity. Qed.

Lemma grid_ascending_in_sections :
  forallb (fun f => ascending (scores (map (with_sections f) (seqZ 0 6)))) (grid (seqZ 0 21) (seqZ 0 16) [0]) = true.
Proof. vm_compute. reflexivity. Qed.

Lemma valid_with_keywords f n :
  valid_features f -> count_ok n -> valid_features (with_keywords f n).
Proof. intros (? & ? & ?) ?. unfold valid_features. simpl. auto. Qed.

Lemma valid_with_citations f n :
  valid_features f -> count_ok n -> valid_features (with_citations f n).
Proof. intros (? & ? & ?) ?. unfold valid_features. simpl. auto. Qed.

Lemma valid_with_sections f n :
  valid_features f -> count_ok n -> valid_features (with_sections f n).
Proof. intros (? & ? & ?) ?. unfold valid_features. simpl. auto. Qed.

Lemma scores_le_saturated g g' :
  valid_features g -> valid_features g' ->
  scores_le (saturated g) (saturated g') -> scores_le g g'.
Proof.
  intros Hg Hg'. unfold scores_le.
  destruct (score_saturated g Hg) as [-> _].
  by destruct (score_saturated g' Hg') as [-> _].
Qed.

Lemma keywords_ascending f n n' :
  valid_features f -> 0 <= n <= n' -> n' < 2 ^ 1023 ->
  scores_le (with_keywords f n) (with_keywords f n').
Proof.
  intros Hf Hn Hn'.
  apply scores_le_saturated;
    [apply valid_with_keywords; [done|unfold count_ok; lia]..|].
  pose proof (forallb_elem_of _ _ (with_keywords (saturated f) 0)
                grid_ascending_in_keywords) as Hasc.
  destruct Hf as (Hk & Hc & Hs). unfold count_ok in *.
  apply (ascending_scores (with_keywords (with_keywords (saturated f) 0)) 21
           (Z.min n 20) (Z.min n' 20)); [|lia|lia].
  apply Hasc. apply elem_of_grid; simpl;
    [apply list_elem_of_here|apply elem_of_seqZ; lia|apply elem_of_seqZ; lia].
Qed.

Lemma citations_ascending f n n' :
  valid_features f -> 0 <= n <= n' -> n' < 2 ^ 1023 ->
  scores_le (with_citations f n) (with_citations f n').
Proof.
  intros Hf Hn Hn'.
  apply scores_le_saturated;
    [apply valid_with_citations; [done|unfold count_ok; lia]..|].
  pose proof (forallb_elem_of _ _ (with_citations (saturated f) 0)
                grid_ascending_in_citations) as Hasc.
  destruct Hf as (Hk & Hc & Hs). unfold count_ok in *.
  apply (ascending_scores (with_citations (with_citations (saturated f) 0)) 16
           (Z.min n 15) (Z.min n' 15)); [|lia|lia].
  apply Hasc. apply elem_of_grid; simpl;
    [apply elem_of_seqZ; lia|apply list_elem_of_here|apply elem_of_seqZ; lia].
Qed.

Lemma sections_ascending f n n' :
  valid_features f -> 0 <= n <= n' -> n' < 2 ^ 1023 ->
  scores_le (with_sections f n) (with_sections f n').
Proof.
  intros Hf Hn Hn'.
  apply scores_le_saturated;
    [apply valid_with_sections; [done|unfold count_ok; lia]..|].
  pose proof (forallb_elem_of _ _ (with_sections (saturated f) 0)
                grid_ascending_in_sections) as Hasc.
  destruct Hf as (Hk & Hc & Hs). unfold count_ok in *.
  apply (ascending_scores (with_sections (with_sections (saturated f) 0)) 6
           (Z.min n 5) (Z.min n' 5)); [|lia|lia].
  apply Hasc. apply elem_of_grid; simpl;
    [apply elem_of_seqZ; lia|apply elem_of_seqZ; lia|apply list_elem_of_here].
Qed.

(** Past saturation the score no longer depends on the count. *)
Lemma score_past_saturation (setter : FeatureSet -> Z -> FeatureSet) f K n n' :
  (forall m, saturated (setter f m) = saturated (setter f (Z.min m K)) ) ->
  (forall m, count_ok m -> valid_features (setter f m)) ->
  K <= n <= n' -> 0 <= K -> n' < 2 ^ 1023 ->
  calculate_confidence_score (setter f n') = calculate_confidence_score (setter f n).
Proof.
  intros Hsat Hval Hn HK Hn'.
  destruct (score_saturated (setter f n)) as [-> _]; [apply Hval; unfold count_ok; lia|].
  destruct (score_saturated (setter f n')) as [-> _]; [apply Hval; unfold count_ok; lia|].
  rewrite (Hsat n), (Hsat n'). by rewrite !Z.min_r by lia.
Qed.

(** The call returns on every valid feature set. *)
Lemma score_returns f :
  valid_features f -> exists x, calculate_confidence_score f = Ok x.
Proof.
  intros Hf. destruct (score_saturated f Hf) as [-> _].
  pose proof (forallb_elem_of _ _ _ grid_scores_ok (saturated_in_grid f Hf)) as H.
  unfold score_ok in H.
  destruct (calculate_confidence_score (saturated f)) as [x|]; [eauto|done].
Qed.

(** C1: on every feature set with counts that are not negative (and
    below 2^1023, where [float(n)] is defined) the call returns; the
    score is the sum, in order, of min(keyword_count * 0.015, 0.3),
    min(citation_count * 0.02, 0.3), 0.1 for a DOI, 0.1 for an ISSN and
    min(section_count * 0.04, 0.2), clamped to at most 1.0; and it lies
    between 0.0 and 1.0. *)
Theorem confidence_score_weighted_sum (f : FeatureSet) :
  valid_features f ->
  exists x,
    calculate_confidence_score f = Ok x /\
    weighted_sum f = Ok x /\
    F.leb F.zero x = true /\ F.leb x F.c1_0 = true.
Proof.
  intros Hf. destruct (score_saturated f Hf) as [-> ->].
  pose proof (forallb_elem_of _ _ _ grid_scores_ok (saturated_in_grid f Hf)) as H.
  unfold score_ok in H.
  destruct (calculate_confidence_score (saturated f)) as [x|]; [|done].
  destruct (weighted_sum (saturated f)) as [y|]; [|done].
  apply andb_true_iff in H as [H H1]. apply andb_true_iff in H as [E H0].
  apply sf_eqb_eq in E as <-. eauto.
Qed.

(** C8: raising the keyword, citation or section count from [n] to
    [n'], the other features fixed, never lowers the score; from 20
    keywords, 15 citations or 5 sections on, the contribution is the cap
    (0.3, 0.3, 0.2) and the score stays the same. *)
Theorem confidence_monotone_saturating (f : FeatureSet) (n n' : Z) :
  valid_features f -> 0 <= n <= n' -> n' < 2 ^ 1023 ->
  scores_le (with_keywords f n) (with_keywords f n') /\
  scores_le (with_citations f n) (with_citations f n') /\
  scores_le (with_sections f n) (with_sections f n') /\
  (20 <= n ->
     contribution n' F.c0_015 F.c0_3 = Ok F.c0_3 /\
     calculate_confidence_score (with_keywords f n') =
       calculate_confidence_score (with_keywords f n)) /\
  (15 <= n ->
     contribution n' F.c0_02 F.c0_3 = Ok F.c0_3 /\
     calculate_confidence_score (with_citations f n') =
       calculate_confidence_score (with_citations f n)) /\
  (5 <= n ->
     contribution n' F.c0_04 F.c0_2 = Ok F.c0_2 /\
     calculate_confidence_score (with_sections f n') =
       calculate_confidence_score (with_sections f n)).
Proof.
  intros Hf Hn Hn'.
  split; [by apply keywords_ascending|].
  split; [by apply citations_ascending|].
  split; [by apply sections_ascending|].
  split; [|split]; intros Hsat.
  - split; [apply keywords_saturate; lia|].
    apply (score_past_saturation with_keywords f 20); try lia.
    + intros m. unfold saturated. simpl. f_equal. lia.
    + intros m Hm. by apply valid_with_keywords.
  - split; [apply citations_saturate; lia|].
    apply (score_past_saturation with_citations f 15); try lia.
    + intros m. unfold saturated. simpl. f_equal. lia.
    + intros m Hm. by apply valid_with_citations.
  - split; [apply sections_saturate; lia|].
    apply (score_past_saturation with_sections f 5); try lia.
    + intros m. unfold saturated. simpl. f_equal. lia.
    + intros m Hm. by apply valid_with_sections.
Qed.

End ScoreFacts.

(** The features of a text with 7 keywords, 4 citations, a DOI, an ISSN
    and 4 section names. *)
Lemma confidence_score_weighted_sum_witness :
  exists x,
    Classifier.calculate_confidence_score
      (Classifier.Build_FeatureSet 7 4 true true 4) = Ok x /\
    ScoreSpec.weighted_sum (Classifier.Build_FeatureSet 7 4 true true 4) = Ok x /\
    F.leb F.zero x = true /\ F.leb x F.c1_0 = true.
Proof.
  apply (confidence_score_weighted_sum (Classifier.Build_FeatureSet 7 4 true true 4)).
  unfold ScoreSpec.valid_features, ScoreSpec.count_ok. simpl.
  repeat split; (discriminate || reflexivity).
Defined.

(** From 3 to 30 of each count, on the same features. *)
Lemma confidence_monotone_saturating_witness :
  let f := Classifier.Build_FeatureSet 7 4 true true 4 in
  ScoreSpec.scores_le (ScoreSpec.with_keywords f 3) (ScoreSpec.with_keywords f 30) /\
  ScoreSpec.scores_le (ScoreSpec.with_citations f 3) (ScoreSpec.with_citations f 30) /\
  ScoreSpec.scores_le (ScoreSpec.with_sections f 3) (ScoreSpec.with_sections f 30) /\
  ((20 <= 3)%Z ->
     ScoreSpec.contribution 30 F.c0_015 F.c0_3 = Ok F.c0_3 /\
     Classifier.calculate_confidence_score (ScoreSpec.with_keywords f 30) =
       Classifier.calculate_confidence_score (ScoreSpec.with_keywords f 3)) /\
  ((15 <= 3)%Z ->
     ScoreSpec.contribution 30 F.c0_02 F.c0_3 = Ok F.c0_3 /\
     Classifier.calculate_confidence_score (ScoreSpec.with_citations f 30) =
       Classifier.calculate_confidence_score (ScoreSpec.with_citations f 3)) /\
  ((5 <= 3)%Z ->
     ScoreSpec.contribution 30 F.c0_04 F.c0_2 = Ok F.c0_2 /\
     Classifier.calculate_confidence_score (ScoreSpec.with_sections f 30) =
       Classifier.calculate_confidence_score (ScoreSpec.with_sections f 3)).
Proof.
  apply (confidence_monotone_saturating (Classifier.Build_FeatureSet 7 4 true true 4) 3 30).
  - unfold ScoreSpec.valid_features, ScoreSpec.count_ok. simpl.
    repeat split; (discriminate || reflexivity).
  - split; discriminate.
  - reflexivity.
Defined.

(** ** DOI and ISSN detection *)

Section FeatureFacts.
Context {U : Unicode}.
Import Re ReSpec Classifier FeatureSpec.

Lemma last_char_cons prev c l : last_char prev (c :: l) = last_char (Some c) l.
Proof.
  unfold last_char. destruct l as [|c' l]; [done|].
  change (last (c :: c' :: l)) with (last (c' :: l)).
  destruct (last (c' :: l)) eqn:E; [done|]. by apply last_None in E.
Qed.

(** [re.search] finds a match exactly when one starts somewhere. *)
Lemma search_from_spec p s : forall prev,
  search_from p prev s = true <->
  exists pre rest n, s = pre ++ rest /\ matches p (last_char prev pre) rest n.
Proof.
  induction s as [|c s IH]; intros prev; simpl.
  - destruct (match_here p prev []) as [n|] eqn:E.
    + split; [|done]. intros _. exists [], [], n.
      split; [done|]. by apply match_here_sound.
    + split; [done|]. intros (pre & rest & n & Hs & Hm).
      symmetry in Hs. apply app_eq_nil in Hs as [-> ->].
      apply match_here_complete in Hm as [? Hm]. unfold last_char in Hm. simpl in Hm.
      congruence.
  - destruct (match_here p prev (c :: s)) as [n|] eqn:E.
    + split; [|done]. intros _. exists [], (c :: s), n.
      split; [done|]. by apply match_here_sound.
    + rewrite IH. split.
      * intros (pre & rest & n & -> & Hm). exists (c :: pre), rest, n.
        split; [done|]. by rewrite last_char_cons.
      * intros (pre & rest & n & Hs & Hm). destruct pre as [|c' pre].
        -- simpl in Hs. subst rest.
           apply match_here_complete in Hm as [? Hm]. unfold last_char in Hm.
           simpl in Hm. congruence.
        -- injection Hs as <- ->. exists pre, rest, n. split; [done|].
           by rewrite <- last_char_cons with (prev := prev).
Qed.

Lemma matches_nil_inv prev s n : matches [] prev s n -> n = 0.
Proof. by inversion 1. Qed.

Lemma matches_chr_inv x p prev s n :
  matches (one (chr x) :: p) prev s n ->
  exists s' m, s = x :: s' /\ n = S m /\ matches p (Some x) s' m.
Proof.
  intros H. apply matches_one_inv in H as (c & s' & m & -> & Hc & -> & H).
  apply N.eqb_eq in Hc as <-. eauto.
Qed.

Lemma matches_chr x p prev s m :
  matches p (Some x) s m -> matches (one (chr x) :: p) prev (x :: s) (S m).
Proof. intros H. apply matches_one; [apply N.eqb_refl|done]. Qed.

Lemma matches_run_inv cls lo hi p prev s n :
  matches (Rep cls lo hi :: p) prev s n ->
  exists run rest m, s = run ++ rest /\ n = length run + m /\
    lo <= length run /\ within hi (length run) /\
    Forall (fun c => cls c = true) run /\
    matches p (last_char prev run) rest m.
Proof.
  intros H. apply matches_rep_inv in H as (k & m & -> & Hlo & Hhi & Hlen & Hall & H).
  exists (take k s), (drop k s), m. rewrite length_take, Nat.min_l by done.
  split; [by rewrite take_drop|]. auto 10.
Qed.

Lemma matches_opt_inv x p prev s n :
  matches (opt (chr x) :: p) prev s n ->
  exists hy rest m, s = hy ++ rest /\ (hy = [] \/ hy = [x]) /\
    n = length hy + m /\ matches p (last_char prev hy) rest m.
Proof.
  intros H. apply matches_run_inv in H as (hy & rest & m & -> & -> & _ & Hhi & Hall & H).
  exists hy, rest, m. split; [done|]. split; [|done].
  simpl in Hhi. destruct hy as [|c [|c' hy]]; [by left| |simpl in Hhi; lia].
  right. apply Forall_cons in Hall as [Hc _]. by apply N.eqb_eq in Hc as <-.
Qed.

Lemma take_matched (m : pystr) rest n s :
  s = m ++ rest -> n = length m -> take n s = m.
Proof. intros -> ->. apply take_app_length. Qed.

Lemma matches_app_run cls lo hi p prev run rest m :
  lo <= length run -> within hi (length run) ->
  Forall (fun c => cls c = true) run ->
  matches p (last_char prev run) rest m ->
  matches (Rep cls lo hi :: p) prev (run ++ rest) (length run + m).
Proof.
  intros Hlo Hhi Hall H. apply matches_rep; [done|done|rewrite length_app; lia| |].
  - by rewrite take_app_length.
  - by rewrite take_app_length, drop_app_length.
Qed.

Lemma matches_doi prev s n :
  matches doi_pattern prev s n -> doi_shape 0 (take n s).
Proof.
  unfold doi_pattern. simpl. intros H.
  apply matches_chr_inv in H as (s1 & n1 & -> & -> & H).
  apply matches_chr_inv in H as (s2 & n2 & -> & -> & H).
  apply matches_chr_inv in H as (s3 & n3 & -> & -> & H).
  apply matches_chr_inv in H as (s4 & n4 & -> & -> & H).
  apply matches_run_inv in H as (ws & r & m & -> & -> & _ & _ & Hws & H).
  apply matches_chr_inv in H as (s5 & n5 & -> & -> & H).
  apply matches_chr_inv in H as (s6 & n6 & -> & -> & H).
  apply matches_chr_inv in H as (s7 & n7 & -> & -> & H).
  apply matches_run_inv in H as (ds & rest & m' & -> & -> & Hds1 & _ & Hds & H).
  apply matches_nil_inv in H as ->.
  exists ws, ds. split; [|split; [lia|split; [done|split; [done|done]]]].
  apply (take_matched _ rest).
  - simpl. by rewrite <- !app_assoc.
  - simpl. rewrite !length_app. simpl. lia.
Qed.

Lemma doi_matches prev m rest :
  doi_shape 0 m -> matches doi_pattern prev (m ++ rest) (length m).
Proof.
  intros (ws & ds & -> & _ & Hws & Hlen & Hds). unfold doi_pattern. simpl.
  do 4 apply matches_chr. rewrite <- !app_assoc, !length_app.
  apply matches_app_run; [lia|done|done|]. simpl.
  do 3 apply matches_chr. rewrite <- (Nat.add_0_r (length ds)).
  apply matches_app_run; [done|done|done|constructor].
Qed.

Lemma matches_issn prev s n :
  matches issn_pattern prev s n -> issn_shape 1 (take n s).
Proof.
  unfold issn_pattern. simpl. intros H.
  apply matches_chr_inv in H as (s1 & n1 & -> & -> & H).
  apply matches_chr_inv in H as (s2 & n2 & -> & -> & H).
  apply matches_chr_inv in H as (s3 & n3 & -> & -> & H).
  apply matches_chr_inv in H as (s4 & n4 & -> & -> & H).
  apply matches_run_inv in H as (sep & r & m & -> & -> & Hsep1 & _ & Hsep & H).
  apply matches_run_inv in H as (d4 & r4 & m4 & -> & -> & Hl4 & Hh4 & Hd4 & H).
  apply matches_opt_inv in H as (hy & r5 & m5 & -> & Hhy & -> & H).
  apply matches_run_inv in H as (d3 & r3 & m3 & -> & -> & Hl3 & Hh3 & Hd3 & H).
  apply matches_one_inv in H as (x & r6 & m6 & -> & Hx & -> & H).
  apply matches_nil_inv in H as ->. simpl in Hh4, Hh3.
  exists sep, d4, hy, d3, x.
  split; [|split; [done|split; [done|split; [lia|split; [done|split; [done|split;
    [lia|split; [done|done]]]]]]]].
  apply (take_matched _ r6).
  - simpl. by rewrite <- !app_assoc.
  - simpl. rewrite !length_app. simpl. lia.
Qed.

Lemma issn_matches prev m rest :
  issn_shape 1 m -> matches issn_pattern prev (m ++ rest) (length m).
Proof.
  intros (sep & d4 & hy & d3 & x & -> & Hsep1 & Hsep & Hl4 & Hd4 & Hhy & Hl3 & Hd3 & Hx).
  unfold issn_pattern. simpl.
  do 4 apply matches_chr. rewrite <- !app_assoc, !length_app.
  apply matches_app_run; [done|done|done|].
  apply matches_app_run; [lia|simpl; lia|done|].
  apply matches_app_run; [lia|destruct Hhy as [->| ->]; simpl; lia| |].
  { destruct Hhy as [->| ->]; repeat constructor. }
  apply matches_app_run; [lia|simpl; lia|done|].
  simpl. apply matches_one; [done|constructor].
Qed.

Lemma search_occurs p shape s :
  (forall prev r n, matches p prev r n -> shape (take n r)) ->
  (forall prev m rest, shape m -> matches p prev (m ++ rest) (length m)) ->
  search p s = true <-> occurs shape s.
Proof.
  intros Hsound Hcomplete. unfold search. rewrite search_from_spec. split.
  - intros (pre & rest & n & -> & Hm). exists pre, (take n rest), (drop n rest).
    split; [by rewrite take_drop|]. by apply Hsound in Hm.
  - intros (pre & m & post & -> & Hm). exists pre, (m ++ post), (length m).
    split; [done|]. by apply Hcomplete.
Qed.

(** C9, as the code has it: [has_doi] holds exactly when the
    lower-cased text contains [doi:], any whitespace (possibly none),
    [10.] and at least one digit; [has_issn] holds exactly when it
    contains [issn], at least one colon or whitespace character, four
    digits, an optional hyphen, three digits and a digit or x or X. *)
Theorem doi_issn_patterns (text : pystr) :
  (has_doi (extract_features text) = true <-> occurs (doi_shape 0) (lower text)) /\
  (has_issn (extract_features text) = true <-> occurs (issn_shape 1) (lower text)).
Proof.
  split; simpl.
  - apply search_occurs; [apply matches_doi|apply doi_matches].
  - apply search_occurs; [apply matches_issn|apply issn_matches].
Qed.

End FeatureFacts.

Section CompareFacts.

Lemma SFcompare_swap x y : SFcompare y x = CompOpp <$> SFcompare x y.
Proof.
  destruct x as [sx|sx| |sx mx ex], y as [sy|sy| |sy my ey]; simpl; try done;
    try (by destruct sx); try (by destruct sy); try (by destruct sx, sy).
  destruct sx, sy; simpl; try done.
  - rewrite (Z.compare_antisym ex ey). destruct (ex ?= ey)%Z; simpl; try done.
    f_equal. by rewrite (Pos.compare_cont_antisym mx my Eq).
  - rewrite (Z.compare_antisym ex ey). destruct (ex ?= ey)%Z; simpl; try done.
    f_equal. by rewrite (Pos.compare_cont_antisym mx my Eq).
Qed.

Lemma ltb_not_leb x y : F.ltb x y = true -> F.leb y x = false.
Proof.
  unfold F.ltb, F.leb, SFltb, SFleb. rewrite (SFcompare_swap x y).
  by destruct (SFcompare x y) as [[]|].
Qed.

End CompareFacts.

(** ** Classification *)

Section ClassifyFacts.
Context {U : Unicode}.
Import Re Classifier ScoreSpec.

(** Every pattern of the program consumes. *)
Lemma program_patterns_consume :
  Forall ReSpec.consumes
    (TextAnalyzer.paragraph_sep :: TextAnalyzer.word_pattern ::
     doi_pattern :: issn_pattern :: citation_patterns).
Proof.
  unfold TextAnalyzer.paragraph_sep, TextAnalyzer.word_pattern, doi_pattern,
    issn_pattern, citation_patterns, lits, one, plus.
  repeat (apply Forall_cons; split;
          [first [apply Exists_cons_hd; simpl; lia
                 |apply Exists_cons_tl, Exists_cons_hd; simpl; lia]|]).
  apply Forall_nil_2.
Qed.

Lemma findall_from_length p s : forall prev skip,
  length (findall_from p prev s skip) <= length s.
Proof.
  induction s as [|c s IH]; intros prev skip; simpl; [done|].
  destruct skip as [|k].
  - destruct (match_here p prev (c :: s)) as [[|k]|]; simpl;
      [specialize (IH (Some c) 0)|specialize (IH (Some c) k)|specialize (IH (Some c) 0)]; lia.
  - specialize (IH (Some c) k). lia.
Qed.

Lemma count_present_bounds items text :
  (0 <= count_present items text <= Z.of_nat (length items))%Z.
Proof.
  unfold count_present. pose proof (filter_length_le (fun x => contains x text) items).
  lia.
Qed.

Lemma findall_total_bounds ps text :
  (0 <= foldr Z.add 0 (map (fun p => Z.of_nat (length (findall p text))) ps)
     <= Z.of_nat (length ps) * Z.of_nat (length text))%Z.
Proof.
  induction ps as [|p ps IH]; [simpl; lia|].
  pose proof (findall_from_length p text None 0) as Hp. unfold findall.
  cbn [map foldr length]. unfold findall in IH. lia.
Qed.

Lemma extract_features_valid text :
  (Z.of_nat (length text) <= maxsize)%Z -> valid_features (extract_features text).
Proof.
  intros Hlen. unfold valid_features, count_ok, extract_features.
  cbn [keyword_count citation_count section_count].
  pose proof (count_present_bounds scientific_keywords (lower text)) as Hk.
  pose proof (count_present_bounds sections (lower text)) as Hs.
  change (Z.of_nat (length scientific_keywords)) with 36%Z in Hk.
  change (Z.of_nat (length sections)) with 6%Z in Hs.
  pose proof (findall_total_bounds citation_patterns text) as Hc.
  change (Z.of_nat (length citation_patterns)) with 3%Z in Hc.
  unfold maxsize in Hlen.
  assert (2 ^ 65 < 2 ^ 1023)%Z by (by apply Z.pow_lt_mono_r).
  assert (2 ^ 65 = 4 * 2 ^ 63)%Z by done.
  repeat split; lia.
Qed.

(** C2: a text that passes the length gate (and is no longer than a
    [str] can be) gets a verdict; its confidence is the score of its
    features, and [is_scientific] holds exactly when that confidence is
    at least 0.3: at 0.3 it holds, below 0.3 it does not. *)
Theorem classify_threshold (text : pystr) :
  100 <= length (strip text) ->
  (Z.of_nat (length text) <= maxsize)%Z ->
  exists v,
    classify (Some text) = Ok v /\
    features v = Some (extract_features text) /\
    calculate_confidence_score (extract_features text) = Ok (confidence v) /\
    (is_scientific v = true <-> F.leb F.c0_3 (confidence v) = true) /\
    (confidence v = F.c0_3 -> is_scientific v = true) /\
    (F.ltb (confidence v) F.c0_3 = true -> is_scientific v = false).
Proof.
  intros Hgate Hlen.
  destruct (score_returns (extract_features text)) as (x & Hx);
    [by apply extract_features_valid|].
  assert (classify (Some text) =
          Ok {| is_scientific := F.leb F.c0_3 x; confidence := x;
                reason := if F.leb F.c0_3 x then reason_scientific
                          else reason_not_scientific;
                features := Some (extract_features text) |}) as E.
  { unfold classify. destruct text as [|c t]; [simpl in Hgate; lia|].
    destruct (Nat.ltb_spec (length (strip (c :: t))) 100); [lia|].
    by rewrite Hx. }
  eexists. split; [exact E|]. simpl. split; [done|]. split; [done|].
  split; [done|]. split.
  - by intros ->.
  - apply ltb_not_leb.
Qed.

(** C3, as the code has it: a missing text, an empty text and a text of
    fewer than 100 characters once trimmed all get the same verdict,
    whatever they contain: not scientific, confidence 0.0, no features,
    reason 'Texto muito curto'. *)
Theorem classify_short (text : option pystr) :
  text = None \/ (exists t, text = Some t /\ length (strip t) < 100) ->
  classify text =
    Ok {| is_scientific := false; confidence := F.zero;
          reason := reason_short; features := None |}.
Proof.
  intros [->|(t & -> & Hlen)]; [done|]. unfold classify.
  destruct t as [|c t]; [done|].
  by destruct (Nat.ltb_spec (length (strip (c :: t))) 100); [|lia].
Qed.

End ClassifyFacts.

Section AsciiFeatures.
Context {U : Unicode}.
Import Re AsciiSpec Classifier FeatureSpec ScoreSpec.

Lemma node_agree_same cls lo hi : node_agree (Rep cls lo hi) (Rep cls lo hi).
Proof. by repeat split. Qed.

Lemma node_agree_decimal lo hi :
  node_agree (Rep (@isdecimal U) lo hi) (Rep (@isdecimal Latin1.db) lo hi).
Proof.
  repeat split. intros c Hc.
  by rewrite (@isdecimal_ascii U).
Qed.

Lemma node_agree_decimal_x lo hi :
  node_agree
    (Rep (fun c => @isdecimal U c || (c =? 120)%N || (c =? 88)%N) lo hi)
    (Rep (fun c => @isdecimal Latin1.db c || (c =? 120)%N || (c =? 88)%N) lo hi).
Proof.
  repeat split. intros c Hc.
  by rewrite (@isdecimal_ascii U).
Qed.

Ltac agree :=
  repeat (constructor;
          [first [apply node_agree_same|apply node_agree_decimal
                 |apply node_agree_decimal_x]|]);
  constructor.

Lemma doi_pattern_agree : Forall2 node_agree (@doi_pattern U) (@doi_pattern Latin1.db).
Proof. unfold doi_pattern, lits, one, opt, star, plus, times. simpl. agree. Qed.

Lemma issn_pattern_agree : Forall2 node_agree (@issn_pattern U) (@issn_pattern Latin1.db).
Proof. unfold issn_pattern, lits, one, opt, star, plus, times. simpl. agree. Qed.

Lemma citation_patterns_agree :
  Forall2 (Forall2 node_agree) (@citation_patterns U) (@citation_patterns Latin1.db).
Proof.
  unfold citation_patterns, lits, one, opt, star, plus, times. simpl.
  repeat (constructor; [agree|]). constructor.
Qed.

(** On ASCII text the features are those computed with the Basic Latin
    tables, whatever the tables say elsewhere. *)
Lemma extract_features_ascii text :
  Forall is_ascii text ->
  @extract_features U text = @extract_features Latin1.db text.
Proof.
  intros Ht. unfold extract_features.
  rewrite (@lower_ascii U), (@lower_ascii Latin1.db) by done.
  pose proof (map_ascii_lower_ascii text Ht) as Hl.
  assert (ascii_prev None) as Hnone by (by intros c).
  f_equal.
  - f_equal. induction citation_patterns_agree as [|p1 p2 l1 l2 Hp _ IH]; [done|].
    simpl. f_equal; [|done]. unfold findall.
    by rewrite (findall_from_ascii U Latin1.db p1 p2 Hp).
  - unfold search. by apply search_from_ascii; [apply doi_pattern_agree|..].
  - unfold search. by apply search_from_ascii; [apply issn_pattern_agree|..].
Qed.

Lemma classify_ascii text :
  Forall is_ascii text -> @classify U (Some text) = @classify Latin1.db (Some text).
Proof.
  intros Ht. unfold classify. destruct text as [|c t]; [done|].
  destruct (length (strip (c :: t)) <? 100); [done|].
  by rewrite extract_features_ascii.
Qed.

(** The text at the threshold is classified as scientific. *)
Example classify_boundary :
  classify (Some boundary_text) =
    Ok {| is_scientific := true; confidence := F.c0_3;
          reason := reason_scientific;
          features := Some {| keyword_count := 0; citation_count := 15;
                              has_doi := false; has_issn := false;
                              section_count := 0 |} |}.
Proof.
  rewrite classify_ascii by (by apply is_ascii_check).
  vm_compute. reflexivity.
Qed.

End AsciiFeatures.

Section Counterexamples.
Import Re AsciiSpec Classifier FeatureSpec.

Lemma doi_without_space (U : Unicode) :
  has_doi (extract_features (lit "doi:10.1")) = true /\
  ~ occurs (doi_shape 1) (lower (lit "doi:10.1")).
Proof.
  split.
  - rewrite extract_features_ascii by (by apply is_ascii_check).
    vm_compute. reflexivity.
  - rewrite lower_ascii by (by apply is_ascii_check).
    intros (pre & m & post & E & ws & ds & -> & Hlen & Hws & _).
    change (map ascii_lower (lit "doi:10.1"))
      with [100; 111; 105; 58; 49; 48; 46; 49]%N in E.
    change (lit "doi:") with [100; 111; 105; 58]%N in E.
    destruct pre as [|c0 pre].
    + simpl in E. destruct ws as [|w ws]; [simpl in Hlen; lia|].
      simpl in E. injection E as E _. subst w.
      by apply Forall_cons in Hws as [Hw _].
    + do 8 (destruct pre as [|? pre]; [simpl in E; discriminate E|]).
      simpl in E. discriminate E.
Qed.

Lemma issn_without_separator (U : Unicode) :
  has_issn (extract_features (lit "issn12345678")) = false /\
  occurs (issn_shape 0) (lower (lit "issn12345678")).
Proof.
  split.
  - rewrite extract_features_ascii by (by apply is_ascii_check).
    vm_compute. reflexivity.
  - rewrite lower_ascii by (by apply is_ascii_check).
    exists [], (lit "issn12345678"), []. split; [done|].
    exists [], (lit "1234"), [], (lit "567"), 56%N.
    split; [done|]. split; [simpl; lia|]. split; [constructor|].
    split; [done|]. split.
    { repeat constructor; by rewrite isdecimal_ascii. }
    split; [by left|]. split; [done|]. split.
    { repeat constructor; by rewrite isdecimal_ascii. }
    by rewrite isdecimal_ascii.
Qed.

(** Whatever the Unicode tables, the two equivalences as the contract
    words them do not hold of the code. *)
Lemma doi_issn_claim_fails :
  (~ exists U : Unicode, forall text,
       has_doi (extract_features text) = true <->
       occurs (doi_shape 1) (lower text)) /\
  (~ exists U : Unicode, forall text,
       has_issn (extract_features text) = true <->
       occurs (issn_shape 0) (lower text)).
Proof.
  split; intros [U H].
  - destruct (doi_without_space U) as [Hcode Hclaim].
    apply Hclaim. by apply H.
  - destruct (issn_without_separator U) as [Hcode Hclaim].
    apply H in Hclaim. congruence.
Qed.

Lemma short_reason_differs :
  @classify Latin1.db (Some []) <>
    Ok {| is_scientific := false; confidence := F.zero;
          reason := lit "text too short"; features := None |}.
Proof. discriminate. Qed.

End Counterexamples.

(** The text at the threshold, with the Basic Latin tables. *)
Lemma classify_threshold_witness :
  exists v,
    @Classifier.classify Latin1.db (Some ScoreSpec.boundary_text) = Ok v /\
    Classifier.features v =
      Some (@Classifier.extract_features Latin1.db ScoreSpec.boundary_text) /\
    Classifier.calculate_confidence_score
      (@Classifier.extract_features Latin1.db ScoreSpec.boundary_text) =
      Ok (Classifier.confidence v) /\
    (Classifier.is_scientific v = true <->
       F.leb F.c0_3 (Classifier.confidence v) = true) /\
    (Classifier.confidence v = F.c0_3 -> Classifier.is_scientific v = true) /\
    (F.ltb (Classifier.confidence v) F.c0_3 = true ->
       Classifier.is_scientific v = false).
Proof.
  apply (@classify_threshold Latin1.db ScoreSpec.boundary_text).
  - apply Nat.leb_le. vm_compute. reflexivity.
  - vm_compute. discriminate.
Defined.

(** A text of ten characters. *)
Lemma classify_short_witness :
  @Classifier.classify Latin1.db (Some (lit "Too short.")) =
    Ok {| Classifier.is_scientific := false; Classifier.confidence := F.zero;
          Classifier.reason := Classifier.reason_short;
          Classifier.features := None |}.
Proof.
  apply (@classify_short Latin1.db (Some (lit "Too short."))).
  right. exists (lit "Too short."). split; [reflexivity|].
  apply Nat.ltb_lt. vm_compute. reflexivity.
Defined.

(** ** Compliance checker *)

Section ComplianceFacts.
Import Compliance.

Variable llm : bool.
Variable analysis : gmap string pyval.

(** What the call returns once both counts are known to be integers,
    whether read from the dictionary or defaulted. *)
Lemma check_compliance_ints (wc pc : Z) :
  dict_get analysis "word_count" (PyInt 0) = PyInt wc ->
  dict_get analysis "paragraph_count" (PyInt 0) = PyInt pc ->
  check_compliance (init llm) analysis =
    Ok {| is_compliant := (2000 <? wc)%Z && (5 <? pc)%Z;
          word_count := wc;
          paragraph_count := pc;
          requirements := {| req_min_words := 2000; req_min_paragraphs := 5 |};
          reasons :=
            (if (wc <=? 2000)%Z then [words_reason wc 2000] else []) ++
            (if (pc <=? 5)%Z then [paragraphs_reason pc 5] else []) |}.
Proof.
  intros Hw Hp. unfold check_compliance. rewrite Hw, Hp. simpl.
  f_equal.
  destruct (Z.ltb_spec 2000 wc), (Z.leb_spec wc 2000),
           (Z.ltb_spec 5 pc), (Z.leb_spec pc 5); simpl; try lia; reflexivity.
Qed.

Lemma dict_get_present (k : string) (d v : pyval) :
  analysis !! k = Some v -> dict_get analysis k d = v.
Proof. unfold dict_get. now intros ->. Qed.

Lemma dict_get_absent (k : string) (d : pyval) :
  analysis !! k = None -> dict_get analysis k d = d.
Proof. unfold dict_get. now intros ->. Qed.

(** C4: with [word_count = wc] and [paragraph_count = pc] in the
    analysis, the check returns; [is_compliant] holds exactly when
    [wc > 2000] and [pc > 5]; [reasons] is empty exactly when compliant;
    otherwise it is the word-count message if [wc <= 2000] followed by
    the paragraph-count message if [pc <= 5]. *)
Theorem check_compliance_thresholds (wc pc : Z) :
  analysis !! "word_count" = Some (PyInt wc) ->
  analysis !! "paragraph_count" = Some (PyInt pc) ->
  exists v,
    check_compliance (init llm) analysis = Ok v /\
    word_count v = wc /\ paragraph_count v = pc /\
    (is_compliant v = true <-> (wc > 2000 /\ pc > 5)%Z) /\
    (reasons v = [] <-> is_compliant v = true) /\
    reasons v =
      (if (wc <=? 2000)%Z then [words_reason wc 2000] else []) ++
      (if (pc <=? 5)%Z then [paragraphs_reason pc 5] else []) /\
    (length (reasons v) <= 2)%nat.
Proof.
  intros Hw Hp. eexists. split.
  - apply check_compliance_ints; apply dict_get_present; eassumption.
  - simpl.
    destruct (Z.ltb_spec 2000 wc), (Z.leb_spec wc 2000),
             (Z.ltb_spec 5 pc), (Z.leb_spec pc 5); simpl; try lia;
      repeat split; intros; try lia; try discriminate; auto.
Qed.

(** C10: a count that is absent from the analysis is read as 0.  When
    one of the two is absent (the other absent too or an integer) the
    check still returns, never compliant, and reports 0 for the absent
    count with its message among the reasons; when both are absent the
    reasons are exactly the word-count message then the
    paragraph-count message. *)
Theorem check_compliance_missing_fields :
  (analysis !! "word_count" = None \/
     exists wc, analysis !! "word_count" = Some (PyInt wc)) ->
  (analysis !! "paragraph_count" = None \/
     exists pc, analysis !! "paragraph_count" = Some (PyInt pc)) ->
  (analysis !! "word_count" = None \/ analysis !! "paragraph_count" = None) ->
  exists v,
    check_compliance (init llm) analysis = Ok v /\
    is_compliant v = false /\
    (analysis !! "word_count" = None ->
       word_count v = 0%Z /\ head (reasons v) = Some (words_reason 0 2000)) /\
    (analysis !! "paragraph_count" = None ->
       paragraph_count v = 0%Z /\ last (reasons v) = Some (paragraphs_reason 0 5)) /\
    (analysis !! "word_count" = None -> analysis !! "paragraph_count" = None ->
       reasons v = [words_reason 0 2000; paragraphs_reason 0 5]).
Proof.
  intros Hw Hp Habs.
  assert (exists wc, dict_get analysis "word_count" (PyInt 0) = PyInt wc /\
            (analysis !! "word_count" = None -> wc = 0%Z)) as (wc & Ewc & Zwc).
  { destruct Hw as [Hw | [wc Hw]].
    - exists 0%Z. split; [now apply dict_get_absent | reflexivity].
    - exists wc. split; [now apply dict_get_present | congruence]. }
  assert (exists pc, dict_get analysis "paragraph_count" (PyInt 0) = PyInt pc /\
            (analysis !! "paragraph_count" = None -> pc = 0%Z)) as (pc & Epc & Zpc).
  { destruct Hp as [Hp | [pc Hp]].
    - exists 0%Z. split; [now apply dict_get_absent | reflexivity].
    - exists pc. split; [now apply dict_get_present | congruence]. }
  eexists. split; [apply (check_compliance_ints wc pc Ewc Epc)|]. simpl.
  split; [|split; [|split]].
  - destruct Habs as [H | H]; [rewrite (Zwc H) | rewrite (Zpc H)]; simpl;
      [reflexivity | apply andb_false_r].
  - intros H. rewrite (Zwc H). split; reflexivity.
  - intros H. rewrite (Zpc H). split; [reflexivity|]. simpl. now rewrite last_snoc.
  - intros H1 H2. rewrite (Zwc H1), (Zpc H2). reflexivity.
Qed.

End ComplianceFacts.

(** The thresholds at work: 2001 words and 6 paragraphs. *)
Lemma check_compliance_thresholds_witness :
  exists v,
    Compliance.check_compliance (Compliance.init false)
      (<["word_count" := PyInt 2001]> (<["paragraph_count" := PyInt 6]> ∅)) = Ok v /\
    Compliance.word_count v = 2001%Z /\ Compliance.paragraph_count v = 6%Z /\
    (Compliance.is_compliant v = true <-> (2001 > 2000 /\ 6 > 5)%Z) /\
    (Compliance.reasons v = [] <-> Compliance.is_compliant v = true) /\
    Compliance.reasons v =
      (if (2001 <=? 2000)%Z then [Compliance.words_reason 2001 2000] else []) ++
      (if (6 <=? 5)%Z then [Compliance.paragraphs_reason 6 5] else []) /\
    (length (Compliance.reasons v) <= 2)%nat.
Proof.
  apply (check_compliance_thresholds false
           (<["word_count" := PyInt 2001]> (<["paragraph_count" := PyInt 6]> ∅))
           2001 6); reflexivity.
Defined.

(** The empty analysis: both counts are absent. *)
Lemma check_compliance_missing_fields_witness :
  exists v,
    Compliance.check_compliance (Compliance.init false) ∅ = Ok v /\
    Compliance.is_compliant v = false /\
    ((∅ : gmap string pyval) !! "word_count" = None ->
       Compliance.word_count v = 0%Z /\
       head (Compliance.reasons v) = Some (Compliance.words_reason 0 2000)) /\
    ((∅ : gmap string pyval) !! "paragraph_count" = None ->
       Compliance.paragraph_count v = 0%Z /\
       last (Compliance.reasons v) = Some (Compliance.paragraphs_reason 0 5)) /\
    ((∅ : gmap string pyval) !! "word_count" = None ->
     (∅ : gmap string pyval) !! "paragraph_count" = None ->
       Compliance.reasons v =
         [Compliance.words_reason 0 2000; Compliance.paragraphs_reason 0 5]).
Proof.
  apply (check_compliance_missing_fields false ∅);
    left; reflexivity.
Defined.
